(** * Crossword generator (src/crossword/generate.py): model and properties

    A shallow embedding of the class [CrosswordCreator]: node consistency,
    [revise], AC-3, the consistency test on assignments, the two ordering
    heuristics and the backtracking search.

    Conventions of the embedding.
    - A word is a [string]; [word[k]] is [String.get], an index out of
      range raises [IndexError].
    - A Python [set] of words is a [gset string]; a loop over it visits
      [elements s] (Python fixes no order either).
    - [self.domains] is a [gmap] from variables to sets of words; a loop
      over the dictionary visits [keys D].
    - An assignment is a Python [dict] filled and emptied by the search:
      an association list in insertion order.
    - A Python exception is a [Raise e] result; the loops of [ac3] and the
      recursion of [backtrack] are driven by a fuel that the wrappers
      compute and that is shown to suffice. *)

From stdpp Require Import gmap strings.
From Stdlib Require Import Ascii.

(** ** The puzzle model *)

Inductive Direction := ACROSS | DOWN.

(** Modelled from the spec: the class [Variable] of module [crossword] is
    not among the sources.  A variable is a run of cells: start row and
    column, direction and length (spec, section 3); it is immutable. *)
Record variable := mkVariable {
  var_i : nat;
  var_j : nat;
  var_direction : Direction;
  var_length : nat;
}.

#[global] Instance Direction_eq_dec : EqDecision Direction.
Proof. solve_decision. Defined.

#[global] Instance variable_eq_dec : EqDecision variable.
Proof. solve_decision. Defined.

Definition variable_to_tuple (v : variable) : nat * nat * bool * nat :=
  (var_i v, var_j v, match var_direction v with ACROSS => true | DOWN => false end,
   var_length v).

Definition variable_of_tuple (t : nat * nat * bool * nat) : variable :=
  let '(a, b, d, l) := t in mkVariable a b (if d then ACROSS else DOWN) l.

#[global] Instance variable_countable : Countable variable.
Proof.
  apply (inj_countable' variable_to_tuple variable_of_tuple).
  by intros [? ? [] ?].
Defined.

(** Modelled from the spec: the class [Crossword] of module [crossword] is
    not among the sources; the solver reads four things from it.
    [variables] and [words] are sets, [overlaps x y] is [shared[x, y]]
    ([None] when the two runs share no cell, else the pair of character
    positions), [neighbors x] is the result of [crossword.neighbors(x)] in
    the order a loop visits it. *)
Record Crossword := mkCrossword {
  variables : gset variable;
  words : gset string;
  overlaps : variable → variable → option (nat * nat);
  neighbors : variable → list variable;
}.

(** ** Results of fallible code *)

Inductive exn := KeyError | IndexError | TypeError | UnboundLocalError.

Inductive result (A : Type) :=
  | Ok (a : A)
  | Raise (e : exn)
  | OutOfFuel.
Arguments Ok {A} a.
Arguments Raise {A} e.
Arguments OutOfFuel {A}.

#[global] Instance result_ret : MRet result := λ A a, Ok a.
#[global] Instance result_bind : MBind result := λ A B f m,
  match m with
  | Ok a => f a
  | Raise e => Raise e
  | OutOfFuel => OutOfFuel
  end.

#[global] Instance exn_eq_dec : EqDecision exn.
Proof. solve_decision. Defined.

(** ** Dictionaries and strings as the code uses them *)

Abbreviation domains := (gmap variable (gset string)).
Abbreviation assignment := (list (variable * string)).
Abbreviation arc := (variable * variable)%type.

(** [self.domains[x]] *)
Definition getitem (D : domains) (x : variable) : result (gset string) :=
  match D !! x with
  | Some s => Ok s
  | None => Raise KeyError
  end.

(** [self.domains.keys()] *)
Definition keys (D : domains) : list variable := (map_to_list D).*1.

(** [word[k]] *)
Definition index (word : string) (k : nat) : result ascii :=
  match String.get k word with
  | Some c => Ok c
  | None => Raise IndexError
  end.

(** A [dict] built by insertion, as an association list in insertion
    order: [k in d], [d[k]], [d[k] = v] (an existing key keeps its place,
    a new key goes last) and [d.pop(k)]. *)
Definition dict_mem {K V} `{EqDecision K} (k : K) (d : list (K * V)) : bool :=
  bool_decide (k ∈ d.*1).

Fixpoint dict_get {K V} `{EqDecision K} (d : list (K * V)) (k : K) : result V :=
  match d with
  | [] => Raise KeyError
  | (k', v) :: d' => if decide (k' = k) then Ok v else dict_get d' k
  end.

Fixpoint dict_set {K V} `{EqDecision K} (k : K) (v : V) (d : list (K * V))
  : list (K * V) :=
  match d with
  | [] => [(k, v)]
  | (k', v') :: d' =>
      if decide (k' = k) then (k', v) :: d' else (k', v') :: dict_set k v d'
  end.

Fixpoint dict_pop {K V} `{EqDecision K} (k : K) (d : list (K * V))
  : result (list (K * V)) :=
  match d with
  | [] => Raise KeyError
  | (k', v') :: d' =>
      if decide (k' = k) then Ok d'
      else d'' ← dict_pop k d'; Ok ((k', v') :: d'')
  end.

(** [sorted(d, key=lambda key: d[key], reverse=False)] on a dictionary
    with numeric values: a stable sort of the entries by value, of which
    the keys are returned. *)
Fixpoint insert_by {A} (key : A → nat) (x : A) (l : list A) : list A :=
  match l with
  | [] => [x]
  | y :: l' => if decide (key x ≤ key y) then x :: l else y :: insert_by key x l'
  end.

Definition sorted_by {A} (key : A → nat) (l : list A) : list A :=
  foldr (insert_by key) [] l.

Definition sorted_keys {K} (d : list (K * nat)) : list K := (sorted_by snd d).*1.

(** ** [CrosswordCreator] *)

(** [__init__]: every variable starts with a copy of the whole word list. *)
Definition init_domains (cw : Crossword) : domains :=
  gset_to_gmap (words cw) (variables cw).

(** The inner loop of [enforce_node_consistency]: the words of the wrong
    length. *)
Fixpoint wrong_length (var : variable) (ws : list string) (inconsistent : gset string)
  : gset string :=
  match ws with
  | [] => inconsistent
  | word :: ws' =>
      wrong_length var ws'
        (if decide (var_length var ≠ String.length word)
         then {[word]} ∪ inconsistent else inconsistent)
  end.

Definition enforce_node_consistency_step (D : domains) (var : variable) : domains :=
  match D !! var with
  | Some s => <[var := s ∖ wrong_length var (elements s) ∅]> D
  | None => D
  end.

Definition enforce_node_consistency (D : domains) : domains :=
  foldl enforce_node_consistency_step D (keys D).

(** [check(shared, word)], the helper local to [revise]: the loop over the
    words of [self.domains[y]]. *)
Fixpoint check_words (word : string) (nx ny : nat) (ws : list string) : result bool :=
  match ws with
  | [] => Ok false
  | w :: ws' =>
      a ← index word nx;
      b ← index w ny;
      if decide (a = b) then Ok true else check_words word nx ny ws'
  end.

Definition check (cw : Crossword) (D : domains) (x y : variable) (word : string)
  : result bool :=
  match overlaps cw x y with
  | None => Raise TypeError
  | Some (nx, ny) =>
      dy ← getitem D y;
      check_words word nx ny (elements dy)
  end.

(** The loop of [revise] over the words of [self.domains[x]]. *)
Fixpoint revise_scan (chk : string → result bool) (ws : list string)
    (inconsistent : gset string) : result (gset string) :=
  match ws with
  | [] => Ok inconsistent
  | word :: ws' =>
      b ← chk word;
      revise_scan chk ws' (if b : bool then inconsistent else {[word]} ∪ inconsistent)
  end.

Definition revise (cw : Crossword) (D : domains) (x y : variable)
  : result (bool * domains) :=
  match overlaps cw x y with
  | None => Ok (false, D)
  | Some _ =>
      dx ← getitem D x;
      inconsistent ← revise_scan (check cw D x y) (elements dx) (∅ : gset string);
      if decide (inconsistent = ∅) then Ok (false, D)
      else Ok (true, <[x := dx ∖ inconsistent]> D)
  end.

(** [ac3]: the worklist.  The queue is built from every ordered pair of
    distinct members of [arcs]; the loop walks the list while appending to
    it, which the model renders by the part of the list not yet visited. *)
Definition initial_queue (arcs : list variable) : list arc :=
  x ← arcs; y ← arcs; if decide (x = y) then [] else [(x, y)].

(** One turn of the loop of [ac3], on the arc [(x, y)]: either the
    function returns, or the turn ends with some arcs appended to the
    queue. *)
Inductive turn :=
  | Return (b : bool)
  | Enqueue (arcs : list arc).

Definition ac3_turn (cw : Crossword) (D : domains) (a : arc) : result (turn * domains) :=
  let '(x, y) := a in
  '(revised, D1) ← revise cw D x y;
  if revised : bool then
    dx ← getitem D1 x;
    if decide (size dx = 0) then Ok (Return false, D1)
    else Ok (Enqueue ((λ neighbor, (neighbor, x)) <$> neighbors cw x), D1)
  else Ok (Enqueue [], D1).

Fixpoint ac3_loop (cw : Crossword) (fuel : nat) (queue : list arc) (D : domains)
  : result (bool * domains) :=
  match fuel with
  | 0 => OutOfFuel
  | S fuel' =>
      match queue with
      | [] => Ok (true, D)
      | a :: rest =>
          '(t, D1) ← ac3_turn cw D a;
          match t with
          | Return b => Ok (b, D1)
          | Enqueue arcs => ac3_loop cw fuel' (rest ++ arcs) D1
          end
      end
  end.

(** Every removal of a word from [domain(x)] pays for the arcs it
    enqueues: the number of steps of the loop is at most the length of the
    queue plus this weight of the store. *)
Definition domain_weight (cw : Crossword) (D : domains) : nat :=
  sum_list_with
    (λ e : variable * gset string, size e.2 * S (length (neighbors cw e.1)))
    (map_to_list D).

Definition ac3_fuel (cw : Crossword) (queue : list arc) (D : domains) : nat :=
  S (length queue + domain_weight cw D).

Definition ac3 (cw : Crossword) (D : domains) (arcs : option (list variable))
  : result (bool * domains) :=
  let arcs := match arcs with None => keys D | Some l => l end in
  let queue := initial_queue arcs in
  ac3_loop cw (ac3_fuel cw queue D) queue D.

Definition assignment_complete (D : domains) (a : assignment) : bool :=
  forallb (λ var, dict_mem var a) (keys D).

(** [consistent]: the three checks made for each assigned variable.  Each
    loop answers [false] when the code returns [False] from inside it. *)
Fixpoint distinct_loop (a : assignment) (var : variable) (vs : list variable)
  : result bool :=
  match vs with
  | [] => Ok true
  | v :: vs' =>
      if decide (v = var) then distinct_loop a var vs'
      else
        w1 ← dict_get a var;
        w2 ← dict_get a v;
        if decide (w1 = w2) then Ok false else distinct_loop a var vs'
  end.

Fixpoint neighbor_loop (cw : Crossword) (a : assignment) (var : variable)
    (ns : list variable) : result bool :=
  match ns with
  | [] => Ok true
  | neighbor :: ns' =>
      match overlaps cw var neighbor with
      | Some (nv, nn) =>
          if dict_mem neighbor a then
            word ← dict_get a var;
            neigbour_word ← dict_get a neighbor;
            c1 ← index word nv;
            c2 ← index neigbour_word nn;
            if decide (c1 ≠ c2) then Ok false else neighbor_loop cw a var ns'
          else neighbor_loop cw a var ns'
      | None => neighbor_loop cw a var ns'
      end
  end.

Fixpoint consistent_loop (cw : Crossword) (a : assignment) (vs : list variable)
  : result bool :=
  match vs with
  | [] => Ok true
  | var :: vs' =>
      w ← dict_get a var;
      if decide (String.length w ≠ var_length var) then Ok false
      else
        d ← distinct_loop a var a.*1;
        if negb d then Ok false
        else
          n ← neighbor_loop cw a var (neighbors cw var);
          if negb n then Ok false else consistent_loop cw a vs'
  end.

Definition consistent (cw : Crossword) (a : assignment) : result bool :=
  consistent_loop cw a a.*1.

(** [order_domain_values] *)
Fixpoint count_conflicts (word : string) (nv nn : nat) (ws : list string) (n : nat)
  : result nat :=
  match ws with
  | [] => Ok n
  | w :: ws' =>
      c1 ← index word nv;
      c2 ← index w nn;
      count_conflicts word nv nn ws' (if decide (c1 ≠ c2) then S n else n)
  end.

Fixpoint ruled_out (cw : Crossword) (D : domains) (a : assignment) (var : variable)
    (word : string) (ns : list variable) (n : nat) : result nat :=
  match ns with
  | [] => Ok n
  | neighbor :: ns' =>
      if dict_mem neighbor a then ruled_out cw D a var word ns' n
      else
        match overlaps cw var neighbor with
        | None => ruled_out cw D a var word ns' n
        | Some (nv, nn) =>
            dn ← getitem D neighbor;
            n' ← count_conflicts word nv nn (elements dn) n;
            ruled_out cw D a var word ns' n'
        end
  end.

Fixpoint order_loop (cw : Crossword) (D : domains) (a : assignment) (var : variable)
    (ws : list string) (order : list (string * nat)) : result (list (string * nat)) :=
  match ws with
  | [] => Ok order
  | word :: ws' =>
      if bool_decide (word ∈ a.*2) then order_loop cw D a var ws' order
      else
        n ← ruled_out cw D a var word (neighbors cw var) 0;
        order_loop cw D a var ws' (dict_set word n order)
  end.

Definition order_domain_values (cw : Crossword) (D : domains) (var : variable)
    (a : assignment) : result (list string) :=
  dv ← getitem D var;
  order ← order_loop cw D a var (elements dv) [];
  Ok (sorted_keys order).

(** [select_unassigned_variable].  The state of the loop is the pair
    ([lowest], [order]); [None] stands for the state before the first
    unassigned variable, where [lowest] is [math.inf] and [order] is not
    bound yet. *)
Fixpoint select_loop (cw : Crossword) (D : domains) (a : assignment)
    (vs : list variable) (st : option (nat * list (variable * nat)))
  : result (option (nat * list (variable * nat))) :=
  match vs with
  | [] => Ok st
  | var :: vs' =>
      if dict_mem var a then select_loop cw D a vs' st
      else
        dv ← getitem D var;
        match st with
        | None =>
            select_loop cw D a vs' (Some (size dv, [(var, length (neighbors cw var))]))
        | Some (lowest, order) =>
            if decide (size dv < lowest) then
              select_loop cw D a vs' (Some (size dv, [(var, length (neighbors cw var))]))
            else if decide (size dv = lowest) then
              select_loop cw D a vs'
                (Some (lowest, dict_set var (length (neighbors cw var)) order))
            else select_loop cw D a vs' st
        end
  end.

Definition select_unassigned_variable (cw : Crossword) (D : domains) (a : assignment)
  : result variable :=
  st ← select_loop cw D a (keys D) None;
  match st with
  | None => Raise UnboundLocalError
  | Some (_, order) =>
      match sorted_keys order with
      | [] => Raise IndexError
      | var :: _ => Ok var
      end
  end.

(** [backtrack].  The result is the returned value ([Some] of the
    assignment object, or [None]) with the store and the assignment as the
    call leaves them: both are mutated in place by the code. *)
Abbreviation search_result := (option assignment * domains * assignment)%type.

(** One turn of the loop of [backtrack], on the candidate [value]: either
    the search returns from inside the turn, or the branch is abandoned
    and the next turn starts from the store and the assignment it
    leaves. *)
Inductive branch :=
  | Found (r : search_result)
  | Abandoned (D : domains) (a : assignment).

Definition try_value (cw : Crossword) (rec : domains → assignment → result search_result)
    (var : variable) (value : string) (D : domains) (a : assignment) : result branch :=
  let a1 := dict_set var value a in
  c ← consistent cw a1;
  if negb c then
    a2 ← dict_pop var a1; Ok (Abandoned D a2)
  else
    '(arc_ok, D1) ← ac3 cw D None;
    if negb arc_ok then
      a2 ← dict_pop var a1; Ok (Abandoned D1 a2)
    else
      '(r, D2, a2) ← rec D1 a1;
      match r with
      | Some _ => Ok (Found (r, D2, a2))
      | None => a3 ← dict_pop var a2; Ok (Abandoned D2 a3)
      end.

Fixpoint try_values (cw : Crossword) (rec : domains → assignment → result search_result)
    (var : variable) (values : list string) (D : domains) (a : assignment)
  : result search_result :=
  match values with
  | [] => Ok (None, D, a)
  | value :: values' =>
      b ← try_value cw rec var value D a;
      match b with
      | Found r => Ok r
      | Abandoned D' a' => try_values cw rec var values' D' a'
      end
  end.

Fixpoint backtrack_rec (cw : Crossword) (fuel : nat) (D : domains) (a : assignment)
  : result search_result :=
  match fuel with
  | 0 => OutOfFuel
  | S fuel' =>
      if assignment_complete D a then Ok (Some a, D, a)
      else
        var ← select_unassigned_variable cw D a;
        values ← order_domain_values cw D var a;
        try_values cw (backtrack_rec cw fuel') var values D a
  end.

(** The depth of the recursion is at most the number of variables that
    still lack a word. *)
Definition unassigned (D : domains) (a : assignment) : list variable :=
  filter (λ var, dict_mem var a = false) (keys D).

Definition backtrack (cw : Crossword) (D : domains) (a : assignment)
  : result search_result :=
  backtrack_rec cw (S (length (unassigned D a))) D a.

Definition solve (cw : Crossword) : result search_result :=
  let D := enforce_node_consistency (init_domains cw) in
  '(_, D1) ← ac3 cw D None;
  backtrack cw D1 [].

(** [letter_grid]: the two-dimensional array of the letters of an
    assignment.  [height] and [width] are [self.crossword.height] and
    [self.crossword.width]; a cell holds [None] or a character. *)
Abbreviation grid := (list (list (option ascii))).

(** The cell of the [k]-th letter of a variable: [i] and [j] in the loop
    of [letter_grid]. *)
Definition cell (v : variable) (k : nat) : nat * nat :=
  (var_i v + (if decide (var_direction v = DOWN) then k else 0),
   var_j v + (if decide (var_direction v = ACROSS) then k else 0)).

(** [letters[i][j] = c] *)
Definition grid_set (letters : grid) (i j : nat) (c : ascii) : result grid :=
  match letters !! i with
  | None => Raise IndexError
  | Some row =>
      if decide (j < length row) then Ok (<[i := <[j := Some c]> row]> letters)
      else Raise IndexError
  end.

Fixpoint write_word (v : variable) (word : string) (ks : list nat) (letters : grid)
  : result grid :=
  match ks with
  | [] => Ok letters
  | k :: ks' =>
      c ← index word k;
      letters' ← grid_set letters (cell v k).1 (cell v k).2 c;
      write_word v word ks' letters'
  end.

Fixpoint letter_grid_loop (items : assignment) (letters : grid) : result grid :=
  match items with
  | [] => Ok letters
  | (v, word) :: items' =>
      letters' ← write_word v word (seq 0 (String.length word)) letters;
      letter_grid_loop items' letters'
  end.

Definition letter_grid (height width : nat) (a : assignment) : result grid :=
  letter_grid_loop a (replicate height (replicate width None)).

(** * Specification vocabulary *)

(** The words of [s] that fit the run [var]. *)
Definition fits (var : variable) (s : gset string) : gset string :=
  filter (λ w, String.length w = var_length var) s.

(** [w] and [w'] carry the same character at the two positions of an
    overlap (both positions exist). *)
Definition agree (nx ny : nat) (w w' : string) : Prop :=
  ∃ c, String.get nx w = Some c ∧ String.get ny w' = Some c.

(** Some word of [dy] agrees with [w]. *)
Definition supported (nx ny : nat) (dy : gset string) (w : string) : Prop :=
  ∃ w', w' ∈ dy ∧ agree nx ny w w'.

(** The arc [(x, y)] is consistent in the store [D]. *)
Definition arc_ok (cw : Crossword) (D : domains) (x y : variable) : Prop :=
  ∀ dx dy nx ny, D !! x = Some dx → D !! y = Some dy →
    overlaps cw x y = Some (nx, ny) → ∀ w, w ∈ dx → supported nx ny dy w.

Definition arc_consistent (cw : Crossword) (D : domains) : Prop :=
  ∀ x y, x ≠ y → arc_ok cw D x y.

(** Invariants of the puzzle model (spec, section 3): the overlap map is
    symmetric, its positions lie inside the two runs, and a variable that
    overlaps [x] is among the neighbours of [x]. *)
Definition overlaps_symmetric (cw : Crossword) : Prop :=
  ∀ x y nx ny, overlaps cw x y = Some (nx, ny) → overlaps cw y x = Some (ny, nx).

Definition overlaps_in_bounds (cw : Crossword) : Prop :=
  ∀ x y nx ny, overlaps cw x y = Some (nx, ny) → nx < var_length x ∧ ny < var_length y.

Definition neighbors_cover (cw : Crossword) (D : domains) : Prop :=
  ∀ x z, is_Some (D !! z) → z ≠ x → is_Some (overlaps cw z x) → z ∈ neighbors cw x.

(** [D'] has the keys of [D] and, at each key, a subset of its words. *)
Definition shrinks (D D' : domains) : Prop :=
  ∀ x, match D !! x, D' !! x with
       | Some dx, Some dx' => dx' ⊆ dx
       | None, None => True
       | _, _ => False
       end.

(** Node consistency of a store, and its counterpart for an assignment. *)
Definition node_consistent (D : domains) : Prop :=
  ∀ v s w, D !! v = Some s → w ∈ s → String.length w = var_length v.

Definition assignment_fits (a : assignment) : Prop :=
  ∀ v w, (v, w) ∈ a → String.length w = var_length v.

(** A consistent assignment (spec, section 3): every word has the length
    of its variable, the words of distinct variables differ, and two
    assigned neighbours agree at their overlap. *)
Definition consistent_assignment (cw : Crossword) (a : assignment) : Prop :=
  (∀ v w, (v, w) ∈ a → String.length w = var_length v) ∧
  (∀ v1 w1 v2 w2, (v1, w1) ∈ a → (v2, w2) ∈ a → v1 ≠ v2 → w1 ≠ w2) ∧
  (∀ v1 w1 v2 w2 n1 n2, (v1, w1) ∈ a → (v2, w2) ∈ a →
     v2 ∈ neighbors cw v1 → overlaps cw v1 v2 = Some (n1, n2) → agree n1 n2 w1 w2).

(** What a call of [backtrack] on [(D, a)] establishes, and what one turn
    of its loop does. *)
Definition search_post (cw : Crossword) (D : domains) (a : assignment)
    (res : search_result) : Prop :=
  let '(r, D', a') := res in
  shrinks D D' ∧
  match r with
  | None => a' = a
  | Some r' =>
      r' = a' ∧ assignment_complete D' a' = true ∧
      (NoDup a.*1 → NoDup a'.*1) ∧
      (a' = a ∨ consistent cw a' = Ok true)
  end.

Definition branch_post (cw : Crossword) (D : domains) (a : assignment) (b : branch)
  : Prop :=
  match b with
  | Abandoned D' a' => shrinks D D' ∧ a' = a
  | Found (r, D', a') =>
      shrinks D D' ∧ r = Some a' ∧ assignment_complete D' a' = true ∧
      (NoDup a.*1 → NoDup a'.*1) ∧ consistent cw a' = Ok true
  end.

(** The state of the loop of [select_unassigned_variable] after the keys
    [seen]: [lowest] is the least domain size among the unassigned ones,
    and [order] maps exactly those that reach it to their degree. *)
Definition select_state (cw : Crossword) (D : domains) (a : assignment)
    (seen : list variable) (st : option (nat * list (variable * nat))) : Prop :=
  match st with
  | None => ∀ v, v ∈ seen → v ∈ a.*1
  | Some (lowest, order) =>
      order ≠ [] ∧
      (∀ v d, (v, d) ∈ order →
         v ∈ seen ∧ (v ∉ a.*1) ∧ d = length (neighbors cw v) ∧
         ∃ dv, D !! v = Some dv ∧ size dv = lowest) ∧
      (∀ v dv, v ∈ seen → v ∉ a.*1 → D !! v = Some dv →
         lowest ≤ size dv ∧ (size dv = lowest → v ∈ order.*1))
  end.

(** ** Vocabulary of the further properties *)

(** A candidate solution gives a word to every variable: [s] lies in the
    store, agrees at every overlap of two variables of the store, and
    gives different words to different variables. *)
Definition sol_in (D : domains) (s : variable → string) : Prop :=
  ∀ x dx, D !! x = Some dx → s x ∈ dx.

Definition sol_agrees (cw : Crossword) (D : domains) (s : variable → string) : Prop :=
  ∀ x y nx ny, is_Some (D !! x) → is_Some (D !! y) →
    overlaps cw x y = Some (nx, ny) → agree nx ny (s x) (s y).

Definition sol_distinct (D : domains) (s : variable → string) : Prop :=
  ∀ x y, is_Some (D !! x) → is_Some (D !! y) → x ≠ y → s x ≠ s y.

(** The neighbours of a variable of the store are variables of the
    store. *)
Definition neighbors_closed (cw : Crossword) (D : domains) : Prop :=
  ∀ x y, is_Some (D !! x) → y ∈ neighbors cw x → is_Some (D !! y).

(** A list in ascending order of [key]. *)
Definition ascending {A} (key : A → nat) (l : list A) : Prop :=
  ∀ i j x y, l !! i = Some x → l !! j = Some y → i < j → key x ≤ key y.

(** The number of values a candidate [word] for [var] rules out: for
    every neighbour without a word yet and with an overlap, the words of
    its domain whose letter at the overlap is not that of [word]. *)
Definition ruled_out_by (cw : Crossword) (D : domains) (a : assignment)
    (var : variable) (word : string) (neighbor : variable) : nat :=
  if dict_mem neighbor a then 0
  else match overlaps cw var neighbor, D !! neighbor with
       | Some (nv, nn), Some dn =>
           length (filter (λ w, String.get nv word ≠ String.get nn w) (elements dn))
       | _, _ => 0
       end.

Definition ruled_out_count (cw : Crossword) (D : domains) (a : assignment)
    (var : variable) (word : string) : nat :=
  sum_list_with (ruled_out_by cw D a var word) (neighbors cw var).

(** Reading a cell of a grid, and the letters an assignment puts on the
    cells, in the order [letter_grid] writes them. *)
Definition grid_get (g : grid) (p : nat * nat) : option (option ascii) :=
  row ← g !! p.1; row !! p.2.

Definition word_writes (v : variable) (word : string) (ks : list nat)
  : list (nat * nat * ascii) :=
  omap (λ k, c ← String.get k word; Some (cell v k, c)) ks.

Definition writes (a : assignment) : list (nat * nat * ascii) :=
  '(v, word) ← a; word_writes v word (seq 0 (String.length word)).

Fixpoint apply_writes (ws : list (nat * nat * ascii)) (g : grid) : result grid :=
  match ws with
  | [] => Ok g
  | (p, c) :: ws' => g' ← grid_set g p.1 p.2 c; apply_writes ws' g'
  end.

(** A grid of [height] rows of [width] cells. *)
Definition has_shape (height width : nat) (g : grid) : Prop :=
  length g = height ∧ ∀ row, row ∈ g → length row = width.

(** Every cell of every word of [a] lies on a grid of [height] rows and
    [width] columns. *)
Definition on_grid (height width : nat) (a : assignment) : Prop :=
  ∀ v word k, (v, word) ∈ a → k < String.length word →
    (cell v k).1 < height ∧ (cell v k).2 < width.

(** The overlap map records the crossings of the runs [vs]: two different
    runs that share a cell are neighbours, with that cell as overlap. *)
Definition crossings_overlap (cw : Crossword) (vs : list variable) : Prop :=
  ∀ x y k k', x ∈ vs → y ∈ vs → x ≠ y → k < var_length x → k' < var_length y →
    cell x k = cell y k' → y ∈ neighbors cw x ∧ overlaps cw x y = Some (k, k').

(** The store a turn of the loop of [backtrack] leaves. *)
Definition branch_store (b : branch) : domains :=
  match b with
  | Abandoned D _ => D
  | Found (_, D, _) => D
  end.

(** The store [D] still holds the candidate solution [s]. *)
Definition holds_solution (cw : Crossword) (s : variable → string) (D : domains) : Prop :=
  sol_in D s ∧ sol_agrees cw D s.

(** A store on which the search raises no exception. *)
Definition well_formed (cw : Crossword) (D : domains) : Prop :=
  node_consistent D ∧ overlaps_in_bounds cw ∧ neighbors_closed cw D.

(** The neighbours of a variable of the puzzle are variables of the
    puzzle. *)
Definition neighbors_in_puzzle (cw : Crossword) : Prop :=
  ∀ x y, x ∈ variables cw → y ∈ neighbors cw x → y ∈ variables cw.

(** The assignment [a] gives variables of the store their words in [s]. *)
Definition extends_to (D : domains) (s : variable → string) (a : assignment) : Prop :=
  ∀ v w, (v, w) ∈ a → is_Some (D !! v) ∧ w = s v.

(** Every word of [ext] comes from the domain of its variable in [D]. *)
Definition drawn_from (D : domains) (ext : assignment) : Prop :=
  ∀ v w, (v, w) ∈ ext → ∃ dv, D !! v = Some dv ∧ w ∈ dv.

(** A successful search returns the assignment it was given followed by
    words drawn from the store. *)
Definition extension_post (D : domains) (a : assignment) (res : search_result) : Prop :=
  match res with
  | (Some r, _, a') => r = a' ∧ ∃ ext, a' = a ++ ext ∧ drawn_from D ext
  | _ => True
  end.

(** * Example puzzles *)

Definition across3 := mkVariable 0 0 ACROSS 3.
Definition down3 := mkVariable 0 1 DOWN 3.

(** Two runs of three cells, the across one from (0,0) and the down one
    from (0,1): they share the cell (0,1), the second letter of the first
    and the first letter of the second. *)
Definition crossing (ws : gset string) : Crossword := {|
  variables := {[across3; down3]};
  words := ws;
  overlaps := λ x y,
    if decide (x = across3 ∧ y = down3) then Some (1, 0)
    else if decide (x = down3 ∧ y = across3) then Some (0, 1)
    else None;
  neighbors := λ x,
    if decide (x = across3) then [down3]
    else if decide (x = down3) then [across3]
    else [];
|}.

(** One run of three cells. *)
Definition single (ws : gset string) : Crossword := {|
  variables := {[across3]};
  words := ws;
  overlaps := λ _ _, None;
  neighbors := λ _, [];
|}.

(** Three runs on a grid of two rows whose middle cell of the second row
    is blocked: the first row, and the first and the last column. *)
Definition first_row := mkVariable 0 0 ACROSS 3.
Definition first_column := mkVariable 0 0 DOWN 2.
Definition last_column := mkVariable 0 2 DOWN 2.

Definition arch (ws : gset string) : Crossword := {|
  variables := {[first_row; first_column; last_column]};
  words := ws;
  overlaps := λ x y,
    if decide (x = first_row ∧ y = first_column) then Some (0, 0)
    else if decide (x = first_column ∧ y = first_row) then Some (0, 0)
    else if decide (x = first_row ∧ y = last_column) then Some (2, 0)
    else if decide (x = last_column ∧ y = first_row) then Some (0, 2)
    else None;
  neighbors := λ x,
    if decide (x = first_row) then [first_column; last_column]
    else if decide (x = first_column) then [first_row]
    else if decide (x = last_column) then [first_row]
    else [];
|}.

(** The solution of the crossing puzzle: cat across, ate down. *)
Definition cat_ate (v : variable) : string :=
  if decide (v = across3) then "cat"%string else "ate"%string.

(** * Properties

    ** Node consistency *)

Lemma elem_of_keys (D : domains) x : x ∈ keys D ↔ is_Some (D !! x).
Proof.
  unfold keys. rewrite list_elem_of_fmap. split.
  - intros [[k s] [-> H]]. apply elem_of_map_to_list in H. eauto.
  - intros [s H]. exists (x, s). split; [done|]. by apply elem_of_map_to_list.
Qed.

Lemma NoDup_keys (D : domains) : NoDup (keys D).
Proof. apply NoDup_fst_map_to_list. Qed.

Lemma wrong_length_spec var ws acc w :
  w ∈ wrong_length var ws acc ↔
  w ∈ acc ∨ (w ∈ ws ∧ var_length var ≠ String.length w).
Proof.
  revert acc. induction ws as [|word ws IH]; intros acc; simpl.
  - set_solver.
  - rewrite IH. case_decide; set_solver.
Qed.

Lemma difference_wrong_length var s :
  s ∖ wrong_length var (elements s) ∅ = fits var s.
Proof.
  apply set_eq. intros w. unfold fits.
  rewrite elem_of_difference, wrong_length_spec, elem_of_filter, elem_of_elements.
  split.
  - intros [Hw Hn]. split; [|done].
    destruct (decide (String.length w = var_length var)); [done|].
    exfalso. apply Hn. right. split; [done|congruence].
  - intros [Hl Hw]. split; [done|]. intros [?|[_ ?]]; [set_solver|congruence].
Qed.

Lemma enforce_node_consistency_step_lookup D x v :
  enforce_node_consistency_step D x !! v =
  if decide (x = v) then fits v <$> D !! v else D !! v.
Proof.
  unfold enforce_node_consistency_step.
  destruct (D !! x) as [s|] eqn:Hx.
  - rewrite difference_wrong_length. case_decide as Hd.
    + subst. by rewrite lookup_insert_eq, Hx.
    + by rewrite lookup_insert_ne.
  - case_decide; [subst; by rewrite Hx|done].
Qed.

Lemma fits_idemp v s : fits v (fits v s) = fits v s.
Proof. unfold fits. set_solver. Qed.

Lemma enforce_node_consistency_foldl l D v :
  foldl enforce_node_consistency_step D l !! v =
  if decide (v ∈ l) then fits v <$> D !! v else D !! v.
Proof.
  revert D. induction l as [|x l IH]; intros D; cbn [foldl].
  - by rewrite decide_False by set_solver.
  - rewrite IH, enforce_node_consistency_step_lookup.
    destruct (decide (x = v)) as [->|Hne].
    + rewrite (decide_True (P := v ∈ v :: l)) by set_solver.
      destruct (decide (v ∈ l)); [|done].
      destruct (D !! v); simpl; [|done]. by rewrite fits_idemp.
    + destruct (decide (v ∈ l)).
      * by rewrite (decide_True (P := v ∈ x :: l)) by set_solver.
      * by rewrite (decide_False (P := v ∈ x :: l)) by set_solver.
Qed.

(** ** [revise] *)

Lemma bind_Ok {A B} (m : result A) (f : A → result B) b :
  m ≫= f = Ok b ↔ ∃ a, m = Ok a ∧ f a = Ok b.
Proof.
  destruct m; simpl; split; try naive_solver.
Qed.

Lemma index_Ok word k c : index word k = Ok c ↔ String.get k word = Some c.
Proof. unfold index. destruct (String.get k word); naive_solver. Qed.

Lemma get_is_Some word k : k < String.length word ↔ is_Some (String.get k word).
Proof.
  revert k. induction word as [|a word IH]; intros k; simpl.
  - split; [lia|]. intros [? ?]; done.
  - destruct k; simpl.
    + split; [eauto|lia].
    + rewrite <- IH. lia.
Qed.

Lemma index_in_bounds word k :
  k < String.length word → ∃ c, index word k = Ok c ∧ String.get k word = Some c.
Proof.
  intros [c Hc]%get_is_Some. exists c. split; [|done]. by apply index_Ok.
Qed.

Lemma index_not_fuel word k : index word k ≠ OutOfFuel.
Proof. unfold index. by destruct (String.get k word). Qed.

(** [check] *)
Lemma check_words_Ok word nx ny ws b :
  check_words word nx ny ws = Ok b →
  (b = true ↔ ∃ w, w ∈ ws ∧ agree nx ny word w).
Proof.
  induction ws as [|w ws IH]; simpl.
  - intros [= <-]. split; [done|]. intros (w & Hw & _). by apply elem_of_nil in Hw.
  - intros (a & Ha%index_Ok & (c & Hc%index_Ok & H)%bind_Ok)%bind_Ok.
    destruct (decide (a = c)) as [->|Hne].
    + injection H as <-. split; [|done]. intros _. exists w. split; [set_solver|].
      by exists c.
    + rewrite (IH H). split.
      * intros (w' & ? & ?). exists w'. split; [set_solver|done].
      * intros (w' & [->|?]%elem_of_cons & Hag); [|by exists w'].
        destruct Hag as (c' & ? & ?). congruence.
Qed.

Lemma check_words_total word nx ny ws :
  nx < String.length word →
  (∀ w, w ∈ ws → ny < String.length w) →
  ∃ b, check_words word nx ny ws = Ok b.
Proof.
  intros Hx Hy. induction ws as [|w ws IH]; simpl; [eauto|].
  destruct (index_in_bounds word nx Hx) as (a & -> & _).
  destruct (index_in_bounds w ny) as (c & -> & _); [apply Hy; set_solver|].
  simpl. destruct (decide (a = c)); [eauto|]. apply IH. intros; apply Hy; set_solver.
Qed.

Lemma check_words_not_fuel word nx ny ws :
  check_words word nx ny ws ≠ OutOfFuel.
Proof.
  induction ws as [|w ws IH]; simpl; [done|].
  unfold index.
  destruct (String.get nx word); simpl; [|congruence].
  destruct (String.get ny w); simpl; [|congruence].
  case_decide; [done|auto].
Qed.

(** [revise] *)
Lemma revise_scan_Ok chk ws acc inc :
  revise_scan chk ws acc = Ok inc →
  (∀ w, w ∈ ws → ∃ b, chk w = Ok b) ∧
  (∀ w, w ∈ inc ↔ w ∈ acc ∨ (w ∈ ws ∧ chk w = Ok false)).
Proof.
  revert acc. induction ws as [|word ws IH]; intros acc; simpl.
  - intros [= <-]. split; [intros w Hw; by apply elem_of_nil in Hw|set_solver].
  - intros (b & Hb & H)%bind_Ok. apply IH in H as [Hall Hinc]. split.
    + intros w [->|?]%elem_of_cons; eauto.
    + intros w. rewrite Hinc. destruct b.
      * split; [set_solver|]. intros [?|[[->|?]%elem_of_cons ?]]; [auto|congruence|auto].
      * split.
        -- intros [[->%elem_of_singleton|?]%elem_of_union|[? ?]]; [right|auto|right];
             (split; [set_solver|done]).
        -- intros [?|[[->|?]%elem_of_cons ?]]; [set_solver|set_solver|auto].
Qed.

Lemma revise_scan_total chk ws acc :
  (∀ w, w ∈ ws → ∃ b, chk w = Ok b) → ∃ inc, revise_scan chk ws acc = Ok inc.
Proof.
  revert acc. induction ws as [|word ws IH]; intros acc Hall; simpl; [eauto|].
  destruct (Hall word) as [b ->]; [set_solver|]. simpl. apply IH.
  intros; apply Hall; set_solver.
Qed.

Lemma getitem_Ok (D : domains) x s : getitem D x = Ok s ↔ D !! x = Some s.
Proof. unfold getitem. destruct (D !! x); naive_solver. Qed.

Lemma check_Ok cw D x y nx ny word b :
  overlaps cw x y = Some (nx, ny) →
  check cw D x y word = Ok b →
  ∃ dy, D !! y = Some dy ∧ (b = true ↔ supported nx ny dy word).
Proof.
  unfold check. intros ->. intros (dy & Hdy%getitem_Ok & H)%bind_Ok.
  exists dy. split; [done|]. rewrite (check_words_Ok _ _ _ _ _ H).
  unfold supported. by setoid_rewrite elem_of_elements.
Qed.

Lemma revise_Ok cw D x y b D' :
  revise cw D x y = Ok (b, D') →
  match overlaps cw x y with
  | None => b = false ∧ D' = D
  | Some (nx, ny) =>
      ∃ dx dx', D !! x = Some dx ∧ D' = <[x := dx']> D ∧
        (∀ w, w ∈ dx' ↔ w ∈ dx ∧ ∃ dy, D !! y = Some dy ∧ supported nx ny dy w) ∧
        (b = true ↔ dx' ≠ dx)
  end.
Proof.
  unfold revise. destruct (overlaps cw x y) as [[nx ny]|] eqn:Hov; [|by intros [= <- <-]].
  intros (dx & Hdx%getitem_Ok & (inc & Hscan & H)%bind_Ok)%bind_Ok.
  apply revise_scan_Ok in Hscan as [Hall Hinc].
  assert (Hsup : ∀ w, w ∈ dx → w ∉ inc ↔ ∃ dy, D !! y = Some dy ∧ supported nx ny dy w).
  { intros w Hw. rewrite Hinc, elem_of_elements.
    destruct (Hall w) as [c Hc]; [by apply elem_of_elements|].
    destruct (check_Ok _ _ _ _ _ _ _ _ Hov Hc) as (dy & Hdy & Hb).
    split.
    - intros Hn. exists dy. split; [done|]. apply Hb. destruct c; [done|].
      exfalso. apply Hn. right. done.
    - intros (dy' & Hdy' & Hs) [?|[_ Hf]]; [set_solver|].
      rewrite Hf in Hc. injection Hc as <-.
      assert (dy' = dy) as -> by congruence. apply Hb in Hs. done. }
  assert (Hsub : inc ⊆ dx).
  { intros w [?|[?%elem_of_elements _]]%Hinc; [set_solver|done]. }
  destruct (decide (inc = ∅)) as [->|Hne]; injection H as <- <-.
  - exists dx, dx. split_and!; [done|by rewrite insert_id| |done].
    intros w. split; [|tauto]. intros Hw. split; [done|]. apply Hsup; set_solver.
  - exists dx, (dx ∖ inc). split_and!; [done|done| |].
    + intros w. rewrite elem_of_difference. split.
      * intros [? ?]. split; [done|]. by apply Hsup.
      * intros [? ?]. split; [done|]. by apply Hsup.
    + split; [|done]. intros _ Heq. apply Hne.
      apply set_eq. intros w. split; [|set_solver]. intros Hw.
      assert (w ∈ dx ∖ inc) by (rewrite Heq; auto). set_solver.
Qed.

Lemma check_total cw D x y nx ny dy word :
  overlaps cw x y = Some (nx, ny) → D !! y = Some dy →
  nx < String.length word → (∀ w, w ∈ dy → ny < String.length w) →
  ∃ b, check cw D x y word = Ok b.
Proof.
  intros Hov Hdy Hx Hy. unfold check, getitem. rewrite Hov, Hdy. simpl.
  apply check_words_total; [done|]. intros w ?%elem_of_elements. auto.
Qed.

Lemma revise_total cw D x y dx dy :
  D !! x = Some dx → D !! y = Some dy →
  (∀ nx ny, overlaps cw x y = Some (nx, ny) →
     (∀ w, w ∈ dx → nx < String.length w) ∧ (∀ w, w ∈ dy → ny < String.length w)) →
  ∃ r, revise cw D x y = Ok r.
Proof.
  intros Hdx Hdy Hb. unfold revise.
  destruct (overlaps cw x y) as [[nx ny]|] eqn:Hov; [|eauto].
  destruct (Hb nx ny eq_refl) as [Hbx Hby].
  unfold getitem at 1. rewrite Hdx. simpl.
  destruct (revise_scan_total (check cw D x y) (elements dx) ∅) as [inc ->].
  { intros w ?%elem_of_elements. eapply check_total; eauto. }
  simpl. case_decide; eauto.
Qed.

(** Claim C5.  [revise(x, y)] on a store in which both variables have a
    domain and the overlap positions exist in the words of the two
    domains: the call returns; the new domain of [x] holds exactly the
    words of the old one with which some word of [domain(y)] agrees at
    the overlap, and no other domain changes; without an overlap the
    call returns [False] and removes nothing; and it returns [True] if
    and only if [domain(x)] lost a word. *)
Theorem revise_spec cw D x y dx dy :
  D !! x = Some dx → D !! y = Some dy →
  (∀ nx ny, overlaps cw x y = Some (nx, ny) →
     (∀ w, w ∈ dx → nx < String.length w) ∧ (∀ w, w ∈ dy → ny < String.length w)) →
  ∃ b D' dx',
    revise cw D x y = Ok (b, D') ∧
    D' = <[x := dx']> D ∧
    match overlaps cw x y with
    | None => b = false ∧ dx' = dx
    | Some (nx, ny) => ∀ w, w ∈ dx' ↔ w ∈ dx ∧ supported nx ny dy w
    end ∧
    (b = true ↔ ∃ w, w ∈ dx ∧ w ∉ dx').
Proof.
  intros Hdx Hdy Hb.
  destruct (revise_total cw D x y dx dy Hdx Hdy Hb) as [[b D'] Hr].
  pose proof (revise_Ok _ _ _ _ _ _ Hr) as Hspec.
  destruct (overlaps cw x y) as [[nx ny]|] eqn:Hov.
  - destruct Hspec as (dx0 & dx' & Hdx0 & -> & Hmem & Hret).
    assert (dx0 = dx) as -> by congruence.
    exists b, (<[x := dx']> D), dx'. split; [done|]. split; [done|]. split.
    + intros w. rewrite Hmem. split.
      * intros (? & dy0 & ? & ?). assert (dy0 = dy) as -> by congruence. done.
      * intros [? ?]. eauto.
    + rewrite Hret. split.
      * intros Hne. destruct (set_choose_or_empty (dx ∖ dx')) as [[w Hw]|He].
        -- exists w. set_solver.
        -- exfalso. apply Hne. apply set_eq. intros w. split; [|set_solver].
           intros Hw. by apply Hmem in Hw as [? _].
      * intros (w & ? & ?) ->. done.
  - destruct Hspec as [-> ->]. exists false, D, dx.
    split; [done|]. split; [by rewrite insert_id|]. split; [done|].
    split; [done|]. intros (w & ? & ?). done.
Qed.

(** ** Arc consistency is a fixed point of [ac3] *)

Lemma supported_in_bounds nx ny dy w : supported nx ny dy w → nx < String.length w.
Proof. intros (w' & _ & c & Hc & _). apply get_is_Some. eauto. Qed.

Lemma revise_arc_ok cw D x y dx dy :
  overlaps_symmetric cw →
  D !! x = Some dx → D !! y = Some dy →
  arc_ok cw D x y → arc_ok cw D y x →
  revise cw D x y = Ok (false, D).
Proof.
  intros Hsym Hdx Hdy Hxy Hyx.
  destruct (revise_total cw D x y dx dy Hdx Hdy) as [[b D'] Hr].
  { intros nx ny Hov. split; intros w Hw.
    - eapply supported_in_bounds, Hxy; eauto.
    - eapply supported_in_bounds, Hyx; eauto. }
  rewrite Hr. pose proof (revise_Ok _ _ _ _ _ _ Hr) as Hspec.
  destruct (overlaps cw x y) as [[nx ny]|] eqn:Hov.
  - destruct Hspec as (dx0 & dx' & Hdx0 & -> & Hmem & Hret).
    assert (dx0 = dx) as -> by congruence.
    assert (dx' = dx) as ->.
    { apply set_eq. intros w. rewrite Hmem. split; [tauto|]. intros Hw.
      split; [done|]. exists dy. split; [done|]. eapply Hxy; eauto. }
    rewrite insert_id by done. destruct b; [|done].
    exfalso. by apply Hret.
  - by destruct Hspec as [-> ->].
Qed.

Lemma ac3_turn_unchanged cw D x y :
  revise cw D x y = Ok (false, D) → ac3_turn cw D (x, y) = Ok (Enqueue [], D).
Proof. unfold ac3_turn. by intros ->. Qed.

Lemma ac3_loop_unchanged cw fuel queue D :
  (∀ a, a ∈ queue → ac3_turn cw D a = Ok (Enqueue [], D)) →
  length queue < fuel →
  ac3_loop cw fuel queue D = Ok (true, D).
Proof.
  revert queue. induction fuel as [|fuel IH]; intros queue Hq Hlen; [lia|].
  destruct queue as [|a rest]; [done|]. cbn [ac3_loop].
  rewrite Hq by set_solver. cbn. rewrite app_nil_r. apply IH.
  - intros; apply Hq; set_solver.
  - simpl in Hlen. lia.
Qed.

Lemma elem_of_initial_queue arcs x y :
  (x, y) ∈ initial_queue arcs ↔ x ∈ arcs ∧ y ∈ arcs ∧ x ≠ y.
Proof.
  unfold initial_queue. rewrite list_elem_of_bind. split.
  - intros (x' & (y' & H & Hy)%list_elem_of_bind & Hx).
    case_decide; [by apply elem_of_nil in H|].
    apply list_elem_of_singleton in H as [= -> ->]. done.
  - intros (Hx & Hy & Hne). exists x. split; [|done].
    apply list_elem_of_bind. exists y. split; [|done].
    rewrite decide_False by done. by apply list_elem_of_singleton.
Qed.

Lemma ac3_arc_consistent cw D :
  overlaps_symmetric cw → arc_consistent cw D → ac3 cw D None = Ok (true, D).
Proof.
  intros Hsym Hac. unfold ac3. apply ac3_loop_unchanged; [|unfold ac3_fuel; lia].
  intros [x y] (Hx & Hy & Hne)%elem_of_initial_queue.
  apply elem_of_keys in Hx as [dx Hdx]. apply elem_of_keys in Hy as [dy Hdy].
  apply ac3_turn_unchanged. eapply revise_arc_ok; eauto.
Qed.

Lemma revise_false cw D x y D1 :
  revise cw D x y = Ok (false, D1) → D1 = D ∧ arc_ok cw D x y.
Proof.
  intros Hr. pose proof (revise_Ok _ _ _ _ _ _ Hr) as Hspec.
  unfold arc_ok.
  destruct (overlaps cw x y) as [[nx ny]|] eqn:Hov; [|by destruct Hspec as [_ ->]].
  destruct Hspec as (dx & dx' & Hdx & -> & Hmem & Hret).
  assert (dx' = dx) as ->.
  { destruct (decide (dx' = dx)) as [|Hne]; [done|]. by apply Hret in Hne. }
  split; [by rewrite insert_id|].
  intros dx0 dy nx0 ny0 Hdx0 Hdy [= <- <-] w Hw.
  assert (dx0 = dx) as -> by congruence.
  apply Hmem in Hw as (_ & dy' & Hdy' & Hs). congruence.
Qed.

Lemma revise_true cw D x y D1 :
  revise cw D x y = Ok (true, D1) →
  ∃ nx ny dx dx', overlaps cw x y = Some (nx, ny) ∧ D !! x = Some dx ∧
    D1 = <[x := dx']> D ∧ dx' ⊂ dx ∧
    (∀ w, w ∈ dx' → ∃ dy, D !! y = Some dy ∧ supported nx ny dy w).
Proof.
  intros Hr. pose proof (revise_Ok _ _ _ _ _ _ Hr) as Hspec.
  destruct (overlaps cw x y) as [[nx ny]|] eqn:Hov; [|by destruct Hspec].
  destruct Hspec as (dx & dx' & Hdx & -> & Hmem & Hret).
  exists nx, ny, dx, dx'. split_and!; [done|done|done| |].
  - assert (dx' ≠ dx) by by apply Hret.
    assert (dx' ⊆ dx) by (intros w Hw; by apply Hmem in Hw as [? _]).
    set_solver.
  - intros w Hw. by apply Hmem in Hw as [_ ?].
Qed.

Lemma ac3_turn_Ok cw D x y t D1 :
  ac3_turn cw D (x, y) = Ok (t, D1) →
  (t = Enqueue [] ∧ revise cw D x y = Ok (false, D1)) ∨
  (revise cw D x y = Ok (true, D1) ∧
   ∃ dx', D1 !! x = Some dx' ∧
     ((dx' = ∅ ∧ t = Return false) ∨
      (dx' ≠ ∅ ∧ t = Enqueue ((λ neighbor, (neighbor, x)) <$> neighbors cw x)))).
Proof.
  unfold ac3_turn. intros ([b D'] & Hr & H)%bind_Ok. destruct b.
  - apply bind_Ok in H as (dx' & Hdx'%getitem_Ok & H). right.
    case_decide as Hsz; injection H as <- <-; (split; [done|]); exists dx';
      (split; [done|]).
    + left. split; [|done]. by apply leibniz_equiv, size_empty_iff.
    + right. split; [|done]. intros ->. by rewrite size_empty in Hsz.
  - injection H as <- <-. left. done.
Qed.

Lemma neighbors_cover_insert cw D x dx dx' :
  D !! x = Some dx → neighbors_cover cw D → neighbors_cover cw (<[x := dx']> D).
Proof.
  intros Hdx Hc a z Hz. apply Hc.
  destruct (decide (x = z)) as [->|Hne]; [eauto|]. by rewrite lookup_insert_ne in Hz.
Qed.

Lemma arc_ok_shrink cw D x y dx dx' :
  D !! x = Some dx → dx' ⊆ dx → x ≠ y →
  arc_ok cw D x y → arc_ok cw (<[x := dx']> D) x y.
Proof.
  intros Hdx Hsub Hne Hok dx0 dy nx ny Hdx0 Hdy Hov w Hw.
  rewrite lookup_insert_eq in Hdx0. injection Hdx0 as <-.
  rewrite lookup_insert_ne in Hdy by done.
  eapply Hok; eauto.
Qed.

Lemma arc_ok_other cw D x a b dx' :
  a ≠ x → b ≠ x → arc_ok cw D a b → arc_ok cw (<[x := dx']> D) a b.
Proof.
  intros Ha Hb Hok dx0 dy nx ny Hdx0 Hdy.
  rewrite lookup_insert_ne in Hdx0 by done.
  rewrite lookup_insert_ne in Hdy by done. eauto.
Qed.

(** The invariant of the worklist: an arc that is not in the queue is
    consistent. *)
Lemma ac3_loop_true_arc_consistent cw fuel queue D D' :
  neighbors_cover cw D →
  (∀ x y, x ≠ y → (x, y) ∈ queue ∨ arc_ok cw D x y) →
  ac3_loop cw fuel queue D = Ok (true, D') →
  arc_consistent cw D'.
Proof.
  revert queue D. induction fuel as [|fuel IH]; intros queue D Hcov Hinv; [done|].
  destruct queue as [|[x y] rest]; cbn [ac3_loop].
  - intros [= <-]. intros a b Hab. destruct (Hinv a b Hab) as [H|H]; [|done].
    by apply elem_of_nil in H.
  - intros ([t D1] & Ht & H)%bind_Ok.
    apply ac3_turn_Ok in Ht as [[-> Hr]|[Hr (dx' & Hdx' & [[_ ->]|[Hne ->]])]].
    + apply revise_false in Hr as [-> Hxy]. rewrite app_nil_r in H.
      eapply IH; [done| |exact H].
      intros a b Hab. destruct (Hinv a b Hab) as [[[= -> ->]|?]%elem_of_cons|?]; auto.
    + done.
    + apply revise_true in Hr as (nx & ny & dx & dx0 & Hov & Hdx & -> & Hsub & Hsup).
      rewrite lookup_insert_eq in Hdx'. injection Hdx' as ->.
      eapply IH; [by eapply neighbors_cover_insert| |exact H].
      intros a b Hab.
      destruct (decide (b = x)) as [->|Hbx].
      { (* arcs into x are enqueued again *)
        destruct (overlaps cw a x) as [p|] eqn:Hax.
        - destruct (D !! a) as [da|] eqn:Hda.
          + left. apply elem_of_app. right. apply list_elem_of_fmap.
            exists a. split; [done|]. apply Hcov; eauto.
          + right. intros da dy nx0 ny0 Hda'.
            rewrite lookup_insert_ne in Hda' by done. congruence.
        - right. intros da dy nx0 ny0 _ _ ?. congruence. }
      destruct (decide (a = x)) as [->|Hax].
      { destruct (decide (b = y)) as [->|Hby].
        - right. intros dx1 dy nx0 ny0 Hdx1 Hdy Hov' w Hw.
          rewrite lookup_insert_eq in Hdx1. injection Hdx1 as <-.
          rewrite lookup_insert_ne in Hdy by done.
          destruct (Hsup w Hw) as (dy' & Hdy' & Hs).
          assert (dy' = dy) as -> by congruence. congruence.
        - destruct (Hinv x b Hab) as [[[= ->]|?]%elem_of_cons|?]; [done| |].
          + left. apply elem_of_app. by left.
          + right. eapply arc_ok_shrink; eauto. set_solver. }
      destruct (Hinv a b Hab) as [[[= -> ->]|?]%elem_of_cons|?]; [done| |].
      * left. apply elem_of_app. by left.
      * right. by apply arc_ok_other.
Qed.

Lemma ac3_true_arc_consistent cw D D' :
  neighbors_cover cw D → ac3 cw D None = Ok (true, D') → arc_consistent cw D'.
Proof.
  intros Hcov. unfold ac3. apply ac3_loop_true_arc_consistent; [done|].
  intros x y Hne.
  destruct (D !! x) as [dx|] eqn:Hdx; [|right; intros ??????; congruence].
  destruct (D !! y) as [dy|] eqn:Hdy; [|right; intros ??????; congruence].
  left. apply elem_of_initial_queue. split_and!; [|  |done]; apply elem_of_keys; eauto.
Qed.

(** ** Termination of [ac3]; the store only shrinks *)

Lemma bind_not_fuel {A B} (m : result A) (f : A → result B) :
  m ≠ OutOfFuel → (∀ a, m = Ok a → f a ≠ OutOfFuel) → m ≫= f ≠ OutOfFuel.
Proof. destruct m; simpl; [eauto|done|done]. Qed.

Lemma getitem_not_fuel (D : domains) x : getitem D x ≠ OutOfFuel.
Proof. unfold getitem. by destruct (D !! x). Qed.

Lemma check_not_fuel cw D x y word : check cw D x y word ≠ OutOfFuel.
Proof.
  unfold check. destruct (overlaps cw x y) as [[nx ny]|]; [|done].
  apply bind_not_fuel; [apply getitem_not_fuel|]. intros; apply check_words_not_fuel.
Qed.

Lemma revise_scan_not_fuel chk ws acc :
  (∀ w, chk w ≠ OutOfFuel) → revise_scan chk ws acc ≠ OutOfFuel.
Proof.
  intros Hchk. revert acc. induction ws as [|w ws IH]; intros acc; simpl; [done|].
  apply bind_not_fuel; [apply Hchk|]. intros; apply IH.
Qed.

Lemma revise_not_fuel cw D x y : revise cw D x y ≠ OutOfFuel.
Proof.
  unfold revise. destruct (overlaps cw x y); [|done].
  apply bind_not_fuel; [apply getitem_not_fuel|]. intros dx _.
  apply bind_not_fuel; [apply revise_scan_not_fuel, check_not_fuel|].
  intros inc _. by case_decide.
Qed.

Lemma ac3_turn_not_fuel cw D a : ac3_turn cw D a ≠ OutOfFuel.
Proof.
  destruct a as [x y]. unfold ac3_turn.
  apply bind_not_fuel; [apply revise_not_fuel|]. intros [[] D1] _; [|done].
  apply bind_not_fuel; [apply getitem_not_fuel|]. intros dx _. by case_decide.
Qed.

Lemma domain_weight_insert cw D x dx dx' :
  D !! x = Some dx → dx' ⊂ dx →
  domain_weight cw (<[x := dx']> D) + S (length (neighbors cw x)) ≤ domain_weight cw D.
Proof.
  intros Hdx Hsub. unfold domain_weight.
  rewrite <- (insert_delete_id D x dx) at 2 by done.
  rewrite <- (insert_delete_eq D x dx').
  rewrite !map_to_list_insert by apply lookup_delete_eq.
  simpl. apply subset_size in Hsub. nia.
Qed.

Lemma ac3_loop_terminates cw fuel queue D :
  length queue + domain_weight cw D < fuel →
  ac3_loop cw fuel queue D ≠ OutOfFuel.
Proof.
  revert queue D. induction fuel as [|fuel IH]; intros queue D Hlt; [lia|].
  destruct queue as [|[x y] rest]; cbn [ac3_loop]; [done|].
  apply bind_not_fuel; [apply ac3_turn_not_fuel|].
  intros [t D1] Ht.
  apply ac3_turn_Ok in Ht as [[-> Hr]|[Hr (dx' & Hdx' & [[_ ->]|[Hne ->]])]].
  - apply revise_false in Hr as [-> _]. apply IH. rewrite app_nil_r. simpl in Hlt. lia.
  - done.
  - apply revise_true in Hr as (nx & ny & dx & dx0 & Hov & Hdx & -> & Hsub & _).
    apply IH. pose proof (domain_weight_insert cw D x dx dx0 Hdx Hsub).
    rewrite length_app, length_fmap. simpl in Hlt. lia.
Qed.

Theorem ac3_terminates cw D arcs : ac3 cw D arcs ≠ OutOfFuel.
Proof. unfold ac3. apply ac3_loop_terminates. unfold ac3_fuel. lia. Qed.

Lemma shrinks_refl D : shrinks D D.
Proof. intros x. by destruct (D !! x). Qed.

Lemma shrinks_trans D1 D2 D3 : shrinks D1 D2 → shrinks D2 D3 → shrinks D1 D3.
Proof.
  intros H12 H23 x. specialize (H12 x). specialize (H23 x).
  destruct (D1 !! x), (D2 !! x), (D3 !! x); try done. set_solver.
Qed.

Lemma shrinks_insert D x dx dx' :
  D !! x = Some dx → dx' ⊆ dx → shrinks D (<[x := dx']> D).
Proof.
  intros Hdx Hsub z. destruct (decide (x = z)) as [<-|Hne].
  - by rewrite lookup_insert_eq, Hdx.
  - rewrite lookup_insert_ne by done. by destruct (D !! z).
Qed.

Lemma ac3_turn_shrinks cw D a t D1 : ac3_turn cw D a = Ok (t, D1) → shrinks D D1.
Proof.
  destruct a as [x y]. intros [[_ Hr]|[Hr _]]%ac3_turn_Ok.
  - apply revise_false in Hr as [-> _]. apply shrinks_refl.
  - apply revise_true in Hr as (nx & ny & dx & dx0 & Hov & Hdx & -> & Hsub & _).
    eapply shrinks_insert; [done|]. set_solver.
Qed.

Lemma ac3_loop_shrinks cw fuel queue D b D' :
  ac3_loop cw fuel queue D = Ok (b, D') → shrinks D D'.
Proof.
  revert queue D. induction fuel as [|fuel IH]; intros queue D; [done|].
  destruct queue as [|a rest]; cbn [ac3_loop].
  - intros [= <- <-]. apply shrinks_refl.
  - intros ([t D1] & Ht & H)%bind_Ok. apply ac3_turn_shrinks in Ht.
    destruct t as [b'|arcs].
    + injection H as <- <-. done.
    + eapply shrinks_trans; eauto.
Qed.

Lemma ac3_shrinks cw D arcs b D' : ac3 cw D arcs = Ok (b, D') → shrinks D D'.
Proof. apply ac3_loop_shrinks. Qed.

(** When [ac3] answers [False] a domain has just been emptied. *)
Lemma ac3_loop_false cw fuel queue D D' :
  ac3_loop cw fuel queue D = Ok (false, D') → ∃ x, D' !! x = Some ∅.
Proof.
  revert queue D. induction fuel as [|fuel IH]; intros queue D; [done|].
  destruct queue as [|[x y] rest]; cbn [ac3_loop]; [done|].
  intros ([t D1] & Ht & H)%bind_Ok.
  apply ac3_turn_Ok in Ht as [[-> Hr]|[Hr (dx' & Hdx' & [[-> ->]|[Hne ->]])]].
  - by eapply IH.
  - injection H as <-. eauto.
  - by eapply IH.
Qed.

Lemma ac3_false cw D arcs D' :
  ac3 cw D arcs = Ok (false, D') → ∃ x, D' !! x = Some ∅.
Proof. apply ac3_loop_false. Qed.

(** ** Character accesses stay in bounds *)

Lemma bind_not_raise {A B} (m : result A) (f : A → result B) e :
  m ≠ Raise e → (∀ a, m = Ok a → f a ≠ Raise e) → m ≫= f ≠ Raise e.
Proof. intros Hm Hf. destruct m; simpl; [by apply Hf|intros [= ->]; by apply Hm|discriminate]. Qed.

Lemma getitem_not_index (D : domains) x : getitem D x ≠ Raise IndexError.
Proof. unfold getitem. by destruct (D !! x). Qed.

Lemma dict_get_Ok {K V} `{EqDecision K} (d : list (K * V)) k v :
  dict_get d k = Ok v → (k, v) ∈ d.
Proof.
  induction d as [|[k' v'] d IH]; simpl; [done|].
  case_decide as Hk; [intros [= ->]; subst; left|intros ?; right; auto].
Qed.

Lemma dict_get_not_index {K V} `{EqDecision K} (d : list (K * V)) k :
  dict_get d k ≠ Raise IndexError.
Proof. induction d as [|[k' v'] d IH]; simpl; [done|]. by case_decide. Qed.

Lemma index_not_raise word k : k < String.length word → index word k ≠ Raise IndexError.
Proof. intros (c & -> & _)%index_in_bounds. done. Qed.

Lemma check_words_in_bounds word nx ny ws :
  nx < String.length word → (∀ w, w ∈ ws → ny < String.length w) →
  check_words word nx ny ws ≠ Raise IndexError.
Proof. intros Hx Hy. by destruct (check_words_total word nx ny ws Hx Hy) as [b ->]. Qed.

Lemma check_in_bounds cw D x y word :
  node_consistent D → overlaps_in_bounds cw →
  String.length word = var_length x →
  check cw D x y word ≠ Raise IndexError.
Proof.
  intros Hnc Hov Hlen. unfold check.
  destruct (overlaps cw x y) as [[nx ny]|] eqn:Hxy; [|done].
  destruct (Hov _ _ _ _ Hxy) as [Hnx Hny].
  apply bind_not_raise; [apply getitem_not_index|].
  intros dy Hdy%getitem_Ok. apply check_words_in_bounds; [lia|].
  intros w Hw%elem_of_elements. rewrite (Hnc _ _ _ Hdy Hw). done.
Qed.

Lemma revise_scan_not_raise chk ws acc e :
  (∀ w, w ∈ ws → chk w ≠ Raise e) → revise_scan chk ws acc ≠ Raise e.
Proof.
  revert acc. induction ws as [|w ws IH]; intros acc Hchk; simpl; [done|].
  apply bind_not_raise; [apply Hchk; set_solver|].
  intros; apply IH. intros; apply Hchk; set_solver.
Qed.

Lemma revise_in_bounds cw D x y :
  node_consistent D → overlaps_in_bounds cw → revise cw D x y ≠ Raise IndexError.
Proof.
  intros Hnc Hov. unfold revise. destruct (overlaps cw x y); [|done].
  apply bind_not_raise; [apply getitem_not_index|]. intros dx Hdx%getitem_Ok.
  apply bind_not_raise.
  - apply revise_scan_not_raise. intros w Hw%elem_of_elements.
    apply check_in_bounds; eauto.
  - intros inc _. by case_decide.
Qed.

Lemma distinct_loop_not_index a var vs : distinct_loop a var vs ≠ Raise IndexError.
Proof.
  induction vs as [|v vs IH]; simpl; [done|]. case_decide; [done|].
  apply bind_not_raise; [apply dict_get_not_index|]. intros w1 _.
  apply bind_not_raise; [apply dict_get_not_index|]. intros w2 _.
  by case_decide.
Qed.

Lemma neighbor_loop_in_bounds cw a var ns :
  assignment_fits a → overlaps_in_bounds cw →
  neighbor_loop cw a var ns ≠ Raise IndexError.
Proof.
  intros Hfit Hov. induction ns as [|n ns IH]; simpl; [done|].
  destruct (overlaps cw var n) as [[nv nn]|] eqn:Hvn; [|done].
  destruct (Hov _ _ _ _ Hvn) as [Hnv Hnn].
  destruct (dict_mem n a); [|done].
  apply bind_not_raise; [apply dict_get_not_index|]. intros word Hw%dict_get_Ok.
  apply bind_not_raise; [apply dict_get_not_index|]. intros nword Hn%dict_get_Ok.
  apply bind_not_raise; [apply index_not_raise; rewrite (Hfit _ _ Hw); lia|].
  intros c1 _.
  apply bind_not_raise; [apply index_not_raise; rewrite (Hfit _ _ Hn); lia|].
  intros c2 _. by case_decide.
Qed.

Lemma consistent_loop_in_bounds cw a vs :
  assignment_fits a → overlaps_in_bounds cw →
  consistent_loop cw a vs ≠ Raise IndexError.
Proof.
  intros Hfit Hov. induction vs as [|v vs IH]; simpl; [done|].
  apply bind_not_raise; [apply dict_get_not_index|]. intros w _.
  case_decide; [done|].
  apply bind_not_raise; [apply distinct_loop_not_index|]. intros d _.
  destruct d; simpl; [|done].
  apply bind_not_raise; [by apply neighbor_loop_in_bounds|]. intros n _.
  by destruct n.
Qed.

Lemma count_conflicts_in_bounds word nv nn ws n :
  nv < String.length word → (∀ w, w ∈ ws → nn < String.length w) →
  count_conflicts word nv nn ws n ≠ Raise IndexError.
Proof.
  intros Hv. revert n. induction ws as [|w ws IH]; intros n Hn; simpl; [done|].
  apply bind_not_raise; [by apply index_not_raise|]. intros c1 _.
  apply bind_not_raise; [apply index_not_raise, Hn; set_solver|]. intros c2 _.
  apply IH. intros; apply Hn; set_solver.
Qed.

Lemma ruled_out_in_bounds cw D a var word ns n :
  node_consistent D → overlaps_in_bounds cw →
  String.length word = var_length var →
  ruled_out cw D a var word ns n ≠ Raise IndexError.
Proof.
  intros Hnc Hov Hlen. revert n. induction ns as [|nb ns IH]; intros n; simpl; [done|].
  destruct (dict_mem nb a); [apply IH|].
  destruct (overlaps cw var nb) as [[nv nn]|] eqn:Hvn; [|apply IH].
  destruct (Hov _ _ _ _ Hvn) as [Hnv Hnn].
  apply bind_not_raise; [apply getitem_not_index|]. intros dn Hdn%getitem_Ok.
  apply bind_not_raise; [|intros; apply IH].
  apply count_conflicts_in_bounds; [lia|].
  intros w Hw%elem_of_elements. rewrite (Hnc _ _ _ Hdn Hw). done.
Qed.

Lemma order_loop_in_bounds cw D a var ws order :
  node_consistent D → overlaps_in_bounds cw →
  (∀ w, w ∈ ws → String.length w = var_length var) →
  order_loop cw D a var ws order ≠ Raise IndexError.
Proof.
  intros Hnc Hov. revert order.
  induction ws as [|w ws IH]; intros order Hlen; simpl; [done|].
  case_bool_decide; [apply IH; intros; apply Hlen; set_solver|].
  apply bind_not_raise; [apply ruled_out_in_bounds; auto; apply Hlen; set_solver|].
  intros n _. apply IH. intros; apply Hlen; set_solver.
Qed.

Lemma order_domain_values_in_bounds cw D var a :
  node_consistent D → overlaps_in_bounds cw →
  order_domain_values cw D var a ≠ Raise IndexError.
Proof.
  intros Hnc Hov. unfold order_domain_values.
  apply bind_not_raise; [apply getitem_not_index|]. intros dv Hdv%getitem_Ok.
  apply bind_not_raise; [|done].
  apply order_loop_in_bounds; auto.
  intros w Hw%elem_of_elements. eauto.
Qed.

(** Claim C10.  With a node-consistent store, assigned words of the
    length of their variables and overlap positions inside the two runs,
    no character access made by [revise], [consistent] or
    [order_domain_values] is out of range: none of them raises
    [IndexError]. *)
Theorem overlap_accesses_in_bounds cw D a :
  node_consistent D → assignment_fits a → overlaps_in_bounds cw →
  (∀ x y, revise cw D x y ≠ Raise IndexError) ∧
  consistent cw a ≠ Raise IndexError ∧
  (∀ var, order_domain_values cw D var a ≠ Raise IndexError).
Proof.
  intros Hnc Hfit Hov. split; [|split].
  - intros x y. by apply revise_in_bounds.
  - by apply consistent_loop_in_bounds.
  - intros var. by apply order_domain_values_in_bounds.
Qed.

(** ** Dictionaries, [sorted] and [consistent] *)

Section dict.
Context {K V : Type} `{EqDecision K}.
Implicit Types (d : list (K * V)) (k : K) (v : V).

Lemma dict_mem_true k d : dict_mem k d = true ↔ k ∈ d.*1.
Proof. unfold dict_mem. by rewrite bool_decide_eq_true. Qed.

Lemma dict_mem_false k d : dict_mem k d = false ↔ k ∉ d.*1.
Proof. unfold dict_mem. by rewrite bool_decide_eq_false. Qed.

Lemma dict_get_elem d k v : NoDup d.*1 → (k, v) ∈ d → dict_get d k = Ok v.
Proof.
  induction d as [|[k' v'] d IH]; simpl; [by intros _ ?%elem_of_nil|].
  intros [Hk Hnd]%NoDup_cons [[= -> ->]|Hin]%elem_of_cons.
  - by rewrite decide_True.
  - rewrite decide_False; [by apply IH|].
    intros ->. apply Hk. apply list_elem_of_fmap. by exists (k, v).
Qed.

Lemma dict_set_fresh k v d : k ∉ d.*1 → dict_set k v d = d ++ [(k, v)].
Proof.
  induction d as [|[k' v'] d IH]; simpl; [done|].
  intros Hk. rewrite decide_False by set_solver. f_equal. apply IH. set_solver.
Qed.

Lemma dict_pop_fresh k v d : k ∉ d.*1 → dict_pop k (d ++ [(k, v)]) = Ok d.
Proof.
  induction d as [|[k' v'] d IH]; simpl; [by rewrite decide_True|].
  intros Hk. rewrite decide_False by set_solver. rewrite IH by set_solver. done.
Qed.

Lemma dict_pop_not_fuel k d : dict_pop k d ≠ OutOfFuel.
Proof.
  induction d as [|[k' v'] d IH]; simpl; [done|]. case_decide; [done|].
  by destruct (dict_pop k d).
Qed.

Lemma dict_get_not_fuel d k : dict_get d k ≠ OutOfFuel.
Proof. induction d as [|[k' v'] d IH]; simpl; [done|]. by case_decide. Qed.

Lemma dict_set_keys k v d : k ∈ d.*1 → (dict_set k v d).*1 = d.*1.
Proof.
  induction d as [|[k' v'] d IH]; simpl; [by intros ?%elem_of_nil|].
  intros Hk. case_decide; [done|]. simpl. f_equal. apply IH. set_solver.
Qed.

Lemma elem_of_dict_set_keys k k' v d : k' ∈ (dict_set k v d).*1 ↔ k' = k ∨ k' ∈ d.*1.
Proof.
  destruct (decide (k ∈ d.*1)) as [Hin|Hnin].
  - rewrite dict_set_keys by done. split; [auto|]. by intros [->|?].
  - rewrite dict_set_fresh, fmap_app by done. set_solver.
Qed.
End dict.

(** [sorted] permutes its argument. *)
Lemma insert_by_perm {A} (key : A → nat) x l : insert_by key x l ≡ₚ x :: l.
Proof.
  induction l as [|y l IH]; simpl; [done|]. case_decide; [done|].
  rewrite IH. apply perm_swap.
Qed.

Lemma sorted_by_perm {A} (key : A → nat) l : sorted_by key l ≡ₚ l.
Proof.
  induction l as [|x l IH]; simpl; [done|]. unfold sorted_by in *. simpl.
  by rewrite insert_by_perm, IH.
Qed.

Lemma elem_of_sorted_keys {K} (d : list (K * nat)) k : k ∈ sorted_keys d ↔ k ∈ d.*1.
Proof. unfold sorted_keys. by rewrite sorted_by_perm. Qed.

(** [consistent] *)
Lemma distinct_loop_true a var vs :
  distinct_loop a var vs = Ok true →
  ∀ v, v ∈ vs → v ≠ var →
    ∃ w1 w2, dict_get a var = Ok w1 ∧ dict_get a v = Ok w2 ∧ w1 ≠ w2.
Proof.
  induction vs as [|v0 vs IH]; simpl; [by intros _ v ?%elem_of_nil|].
  case_decide as Hv0.
  - intros H v [->|?]%elem_of_cons ?; [done|]. by apply IH.
  - intros (w1 & Hw1 & (w2 & Hw2 & H)%bind_Ok)%bind_Ok.
    case_decide; [done|].
    intros v [->|?]%elem_of_cons ?; [eauto|]. by apply IH.
Qed.

Lemma neighbor_loop_true cw a var ns :
  neighbor_loop cw a var ns = Ok true →
  ∀ n nv nn, n ∈ ns → overlaps cw var n = Some (nv, nn) → n ∈ a.*1 →
    ∃ word nword, dict_get a var = Ok word ∧ dict_get a n = Ok nword ∧
      agree nv nn word nword.
Proof.
  induction ns as [|n0 ns IH]; simpl; [by intros _ n nv nn ?%elem_of_nil|].
  destruct (overlaps cw var n0) as [[nv0 nn0]|] eqn:Hov.
  - destruct (dict_mem n0 a) eqn:Hmem.
    + intros (word & Hw & (nword & Hn & (c1 & Hc1%index_Ok & (c2 & Hc2%index_Ok & H)%bind_Ok)%bind_Ok)%bind_Ok)%bind_Ok.
      case_decide as Hc; [done|].
      intros n nv nn [->|?]%elem_of_cons Hov' Hin; [|by eapply IH].
      exists word, nword. split_and!; [done|done|].
      rewrite Hov in Hov'. injection Hov' as <- <-.
      exists c1. split; [done|].
      destruct (decide (c1 = c2)) as [->|]; [done|]. by destruct Hc.
    + intros H n nv nn [->|?]%elem_of_cons Hov' Hin; [|by eapply IH].
      apply dict_mem_false in Hmem. done.
  - intros H n nv nn [->|?]%elem_of_cons Hov' Hin; [congruence|by eapply IH].
Qed.

Lemma consistent_loop_true cw a vs :
  consistent_loop cw a vs = Ok true →
  ∀ var, var ∈ vs →
    ∃ w, dict_get a var = Ok w ∧ String.length w = var_length var ∧
      distinct_loop a var a.*1 = Ok true ∧
      neighbor_loop cw a var (neighbors cw var) = Ok true.
Proof.
  induction vs as [|v0 vs IH]; simpl; [by intros _ v ?%elem_of_nil|].
  intros (w & Hw & H)%bind_Ok. case_decide as Hlen; [done|].
  apply bind_Ok in H as ([] & Hd & H); simpl in H; [|done].
  apply bind_Ok in H as ([] & Hn & H); simpl in H; [|done].
  intros var [->|?]%elem_of_cons; [|by apply IH].
  exists w. split_and!; [done| |done|done].
  destruct (decide (String.length w = var_length v0)); [done|]. by destruct Hlen.
Qed.

Lemma consistent_true cw a :
  NoDup a.*1 → consistent cw a = Ok true → consistent_assignment cw a.
Proof.
  intros Hnd Hc. pose proof (consistent_loop_true _ _ _ Hc) as H.
  assert (Hkey : ∀ v w, (v, w) ∈ a → v ∈ a.*1).
  { intros v w ?. apply list_elem_of_fmap. by exists (v, w). }
  split; [|split].
  - intros v w Hin. destruct (H v) as (w' & Hw' & Hlen & _); [eauto|].
    rewrite (dict_get_elem _ _ _ Hnd Hin) in Hw'. by injection Hw' as <-.
  - intros v1 w1 v2 w2 H1 H2 Hne.
    destruct (H v1) as (_ & _ & _ & Hd & _); [eauto|].
    destruct (distinct_loop_true _ _ _ Hd v2) as (w1' & w2' & Hw1 & Hw2 & Hw); [eauto|done|].
    rewrite (dict_get_elem _ _ _ Hnd H1) in Hw1.
    rewrite (dict_get_elem _ _ _ Hnd H2) in Hw2. congruence.
  - intros v1 w1 v2 w2 n1 n2 H1 H2 Hnb Hov.
    destruct (H v1) as (_ & _ & _ & _ & Hn); [eauto|].
    destruct (neighbor_loop_true _ _ _ _ Hn v2 n1 n2) as (w1' & w2' & Hw1 & Hw2 & Hag);
      [done|done|eauto|].
    rewrite (dict_get_elem _ _ _ Hnd H1) in Hw1.
    rewrite (dict_get_elem _ _ _ Hnd H2) in Hw2. congruence.
Qed.

(** ** [select_unassigned_variable] *)

(** What [select_unassigned_variable] computes: the loop keeps the least
    domain size seen so far and the unassigned variables that reach it,
    each with its degree; the stable ascending sort then puts a variable
    of least degree first. *)
Lemma sorted_by_head {A} (key : A → nat) l h t :
  sorted_by key l = h :: t → ∀ y, y ∈ l → key h ≤ key y.
Proof.
  revert h t. induction l as [|x l IH]; intros h t; [done|].
  unfold sorted_by in *. cbn [foldr].
  destruct (foldr (insert_by key) [] l) as [|h0 t0] eqn:Hs.
  - assert (l = []) as ->.
    { apply Permutation_nil_r. rewrite <- (sorted_by_perm key l). unfold sorted_by.
      by rewrite Hs. }
    simpl. intros [= <- <-] y ->%list_elem_of_singleton. done.
  - simpl. specialize (IH h0 t0 eq_refl). case_decide as Hle.
    + intros [= <- <-] y [->|Hy]%elem_of_cons; [done|]. specialize (IH y Hy). lia.
    + intros [= <- <-] y [->|Hy]%elem_of_cons; [lia|]. by apply IH.
Qed.

Lemma elem_of_dict_set {K V} `{EqDecision K} (k k' : K) (v v' : V) d :
  (k', v') ∈ dict_set k v d → (k', v') = (k, v) ∨ (k', v') ∈ d.
Proof.
  induction d as [|[k0 v0] d IH]; simpl.
  - intros ?%list_elem_of_singleton. by left.
  - case_decide as Hk.
    + intros [[= -> ->]|?]%elem_of_cons; [left; by subst|right; by right].
    + intros [[= -> ->]|?]%elem_of_cons; [right; left|].
      destruct IH as [?|?]; [done|by left|right; by right].
Qed.

Lemma select_loop_spec cw D a vs seen st st' :
  select_loop cw D a vs st = Ok st' →
  select_state cw D a seen st → select_state cw D a (seen ++ vs) st'.
Proof.
  revert seen st. induction vs as [|var vs IH]; intros seen st; simpl.
  - intros [= <-]. by rewrite app_nil_r.
  - rewrite (cons_middle var seen vs), app_assoc.
    destruct (dict_mem var a) eqn:Hmem.
    { intros H Hst. apply (IH _ _ H). apply dict_mem_true in Hmem.
      destruct st as [[lowest order]|]; simpl in *.
      - destruct Hst as (Hne & Hord & Hmin). split_and!; [done| |].
        + intros v d Hin. destruct (Hord v d Hin) as (? & ?). split; [set_solver|done].
        + intros v dv [?| ->%list_elem_of_singleton]%elem_of_app ? ?; [eauto|done].
      - intros v [?| ->%list_elem_of_singleton]%elem_of_app; [eauto|done]. }
    apply dict_mem_false in Hmem.
    intros (dv & Hdv%getitem_Ok & H)%bind_Ok Hst.
    destruct st as [[lowest order]|]; simpl in Hst.
    + destruct Hst as (Hne & Hord & Hmin).
      case_decide as Hlt; [|case_decide as Heq].
      * apply (IH _ _ H). simpl. split_and!; [done| |].
        -- intros v d [= -> ->]%list_elem_of_singleton.
           split_and!; [set_solver|done|done|eauto].
        -- intros v dv' [Hv| ->%list_elem_of_singleton]%elem_of_app Hna Hdv'.
           ++ destruct (Hmin v dv' Hv Hna Hdv') as [Hle _]. split; [lia|lia].
           ++ assert (dv' = dv) as -> by congruence. split; [done|]. intros _. set_solver.
      * apply (IH _ _ H). simpl. split_and!.
        -- destruct order as [|[] ?]; [done|]. simpl. by case_decide.
        -- intros v d [[= -> ->]|Hin]%elem_of_dict_set.
           ++ split_and!; [set_solver|done|done|eauto].
           ++ destruct (Hord v d Hin) as (? & ?). split; [set_solver|done].
        -- intros v dv' [Hv| ->%list_elem_of_singleton]%elem_of_app Hna Hdv'.
           ++ destruct (Hmin v dv' Hv Hna Hdv') as [Hle Hin]. split; [done|].
              intros E. apply elem_of_dict_set_keys. right. auto.
           ++ assert (dv' = dv) as -> by congruence. split; [lia|]. intros _.
              apply elem_of_dict_set_keys. by left.
      * apply (IH _ _ H). simpl. split_and!; [done| |].
        -- intros v d Hin. destruct (Hord v d Hin) as (? & ?). split; [set_solver|done].
        -- intros v dv' [Hv| ->%list_elem_of_singleton]%elem_of_app Hna Hdv'; [eauto|].
           assert (dv' = dv) as -> by congruence. split; [lia|lia].
    + apply (IH _ _ H). simpl. split_and!; [done| |].
      * intros v d [= -> ->]%list_elem_of_singleton.
        split_and!; [set_solver|done|done|eauto].
      * intros v dv' [Hv| ->%list_elem_of_singleton]%elem_of_app Hna Hdv'.
        -- by apply Hst in Hv.
        -- assert (dv' = dv) as -> by congruence. split; [done|]. intros _. set_solver.
Qed.

Theorem select_unassigned_variable_spec cw D a var :
  select_unassigned_variable cw D a = Ok var →
  (var ∉ a.*1) ∧
  ∃ dv, D !! var = Some dv ∧
    ∀ v dv', D !! v = Some dv' → v ∉ a.*1 →
      size dv ≤ size dv' ∧
      (size dv' = size dv → length (neighbors cw var) ≤ length (neighbors cw v)).
Proof.
  unfold select_unassigned_variable. intros (st & Hst & H)%bind_Ok.
  apply (select_loop_spec _ _ _ _ []) in Hst; [|by intros v ?%elem_of_nil].
  rewrite app_nil_l in Hst.
  destruct st as [[lowest order]|]; [|done]. destruct Hst as (Hne & Hord & Hmin).
  unfold sorted_keys in H.
  destruct (sorted_by snd order) as [|[v0 d0] rest] eqn:Hs; [done|].
  injection H as ->.
  pose proof (sorted_by_head _ _ _ _ Hs) as Hhead.
  assert (Hin : (var, d0) ∈ order).
  { rewrite <- (sorted_by_perm snd order), Hs. left. }
  destruct (Hord _ _ Hin) as (_ & Hna & -> & dv & Hdv & Hsz).
  split; [done|]. exists dv. split; [done|].
  intros v dv' Hdv' Hv.
  assert (Hk : v ∈ keys D) by (apply elem_of_keys; eauto).
  destruct (Hmin v dv' Hk Hv Hdv') as [Hle Hmem]. split; [lia|].
  intros E. rewrite E, Hsz in Hmem. specialize (Hmem eq_refl).
  apply list_elem_of_fmap in Hmem as ([v' d'] & -> & Hin').
  destruct (Hord _ _ Hin') as (_ & _ & -> & _). apply (Hhead _ Hin').
Qed.

Lemma select_unassigned_variable_Ok cw D a var :
  select_unassigned_variable cw D a = Ok var → (var ∉ a.*1) ∧ is_Some (D !! var).
Proof.
  intros (Hvar & dv & Hdv & _)%select_unassigned_variable_spec. eauto.
Qed.

Lemma select_loop_not_fuel cw D a vs st : select_loop cw D a vs st ≠ OutOfFuel.
Proof.
  revert st. induction vs as [|var vs IH]; intros st; simpl; [done|].
  destruct (dict_mem var a); [done|].
  apply bind_not_fuel; [apply getitem_not_fuel|]. intros dv _.
  destruct st as [[lowest order]|]; [|done]. repeat case_decide; done.
Qed.

Lemma select_unassigned_variable_not_fuel cw D a :
  select_unassigned_variable cw D a ≠ OutOfFuel.
Proof.
  unfold select_unassigned_variable.
  apply bind_not_fuel; [apply select_loop_not_fuel|].
  intros [[lowest order]|] _; [|done]. by destruct (sorted_keys order).
Qed.

(** Nothing but the two recursive loops can run out of fuel. *)
Lemma count_conflicts_not_fuel word nv nn ws n :
  count_conflicts word nv nn ws n ≠ OutOfFuel.
Proof.
  revert n. induction ws as [|w ws IH]; intros n; simpl; [done|].
  apply bind_not_fuel; [apply index_not_fuel|]. intros c1 _.
  apply bind_not_fuel; [apply index_not_fuel|]. intros c2 _. apply IH.
Qed.

Lemma ruled_out_not_fuel cw D a var word ns n :
  ruled_out cw D a var word ns n ≠ OutOfFuel.
Proof.
  revert n. induction ns as [|nb ns IH]; intros n; simpl; [done|].
  destruct (dict_mem nb a); [done|].
  destruct (overlaps cw var nb) as [[nv nn]|]; [|done].
  apply bind_not_fuel; [apply getitem_not_fuel|]. intros dn _.
  apply bind_not_fuel; [apply count_conflicts_not_fuel|]. intros; apply IH.
Qed.

Lemma order_loop_not_fuel cw D a var ws order :
  order_loop cw D a var ws order ≠ OutOfFuel.
Proof.
  revert order. induction ws as [|w ws IH]; intros order; simpl; [done|].
  case_bool_decide; [done|].
  apply bind_not_fuel; [apply ruled_out_not_fuel|]. intros; apply IH.
Qed.

Lemma order_domain_values_not_fuel cw D var a :
  order_domain_values cw D var a ≠ OutOfFuel.
Proof.
  unfold order_domain_values.
  apply bind_not_fuel; [apply getitem_not_fuel|]. intros dv _.
  apply bind_not_fuel; [apply order_loop_not_fuel|]. done.
Qed.

Lemma distinct_loop_not_fuel a var vs : distinct_loop a var vs ≠ OutOfFuel.
Proof.
  induction vs as [|v vs IH]; simpl; [done|]. case_decide; [done|].
  apply bind_not_fuel; [apply dict_get_not_fuel|]. intros w1 _.
  apply bind_not_fuel; [apply dict_get_not_fuel|]. intros w2 _.
  by case_decide.
Qed.

Lemma neighbor_loop_not_fuel cw a var ns : neighbor_loop cw a var ns ≠ OutOfFuel.
Proof.
  induction ns as [|n ns IH]; simpl; [done|].
  destruct (overlaps cw var n) as [[nv nn]|]; [|done].
  destruct (dict_mem n a); [|done].
  apply bind_not_fuel; [apply dict_get_not_fuel|]. intros word _.
  apply bind_not_fuel; [apply dict_get_not_fuel|]. intros nword _.
  apply bind_not_fuel; [apply index_not_fuel|]. intros c1 _.
  apply bind_not_fuel; [apply index_not_fuel|]. intros c2 _. by case_decide.
Qed.

Lemma consistent_not_fuel cw a : consistent cw a ≠ OutOfFuel.
Proof.
  unfold consistent. generalize (a.*1) at 1. intros vs.
  induction vs as [|v vs IH]; simpl; [done|].
  apply bind_not_fuel; [apply dict_get_not_fuel|]. intros w _.
  case_decide; [done|].
  apply bind_not_fuel; [apply distinct_loop_not_fuel|]. intros [] _; simpl; [|done].
  apply bind_not_fuel; [apply neighbor_loop_not_fuel|]. intros [] _; done.
Qed.

(** ** [backtrack] *)

Lemma NoDup_dict_set_fresh (a : assignment) var value :
  var ∉ a.*1 → NoDup a.*1 → NoDup (dict_set var value a).*1.
Proof.
  intros Hv Hnd. rewrite dict_set_fresh, fmap_app by done. simpl.
  apply NoDup_app. split_and!; [done| |apply NoDup_singleton].
  intros x Hx ->%list_elem_of_singleton. done.
Qed.

Lemma try_value_post cw rec var value D a b :
  (∀ D1 a1 res, rec D1 a1 = Ok res → search_post cw D1 a1 res) →
  var ∉ a.*1 →
  try_value cw rec var value D a = Ok b → branch_post cw D a b.
Proof.
  intros Hrec Hvar. unfold try_value.
  rewrite dict_set_fresh by done.
  intros (c & Hc & H)%bind_Ok. destruct c; simpl in H.
  - apply bind_Ok in H as ([arc_ok D1] & Hac & H).
    pose proof (ac3_shrinks _ _ _ _ _ Hac) as Hs1.
    destruct arc_ok; simpl in H.
    + apply bind_Ok in H as ([[r D2] a2] & Hr & H).
      apply Hrec in Hr as [Hs2 Hr]. destruct r as [r'|].
      * injection H as <-. destruct Hr as (-> & Hcomp & Hnd & Hcons).
        split_and!; [by eapply shrinks_trans|done|done| |].
        -- intros Ha. apply Hnd. rewrite <- dict_set_fresh by done.
           by apply NoDup_dict_set_fresh.
        -- destruct Hcons as [->|?]; done.
      * subst a2. rewrite dict_pop_fresh in H by done. injection H as <-.
        split; [by eapply shrinks_trans|done].
    + rewrite dict_pop_fresh in H by done. injection H as <-. done.
  - rewrite dict_pop_fresh in H by done. injection H as <-.
    split; [apply shrinks_refl|done].
Qed.

Lemma try_values_post cw rec var values D a res :
  (∀ D1 a1 res, rec D1 a1 = Ok res → search_post cw D1 a1 res) →
  var ∉ a.*1 →
  try_values cw rec var values D a = Ok res →
  let '(r, D', a') := res in
  shrinks D D' ∧
  match r with
  | None => a' = a
  | Some r' =>
      r' = a' ∧ assignment_complete D' a' = true ∧
      (NoDup a.*1 → NoDup a'.*1) ∧ consistent cw a' = Ok true
  end.
Proof.
  intros Hrec Hvar. revert D. induction values as [|value values IH]; intros D; simpl.
  - intros [= <-]. split; [apply shrinks_refl|done].
  - intros (b & Hb & H)%bind_Ok.
    apply try_value_post in Hb; [|done|done].
    destruct b as [[[r D1] a1]|D1 a1].
    + injection H as <-. destruct Hb as (? & -> & ? & ? & ?). done.
    + destruct Hb as [Hs ->]. apply IH in H. destruct res as [[r D'] a'].
      destruct H as [Hs' H]. split; [by eapply shrinks_trans|done].
Qed.

Lemma backtrack_rec_post cw fuel D a res :
  backtrack_rec cw fuel D a = Ok res → search_post cw D a res.
Proof.
  revert D a res. induction fuel as [|fuel IH]; intros D a res; [done|].
  cbn [backtrack_rec]. destruct (assignment_complete D a) eqn:Hcomp.
  - intros [= <-]. split; [apply shrinks_refl|]. split_and!; auto.
  - intros (var & [Hvar _]%select_unassigned_variable_Ok & (values & _ & H)%bind_Ok)%bind_Ok.
    apply try_values_post in H; [|exact IH|done].
    destruct res as [[r D'] a']. destruct H as [Hs H]. split; [done|].
    destruct r; [|done]. destruct H as (? & ? & ? & ?). split_and!; auto.
Qed.

(** Keys, and the variables left to assign. *)
Lemma shrinks_is_Some D D' x : shrinks D D' → is_Some (D' !! x) ↔ is_Some (D !! x).
Proof.
  intros H. specialize (H x). by destruct (D !! x), (D' !! x).
Qed.

Lemma keys_shrinks D D' : shrinks D D' → keys D' ≡ₚ keys D.
Proof.
  intros H. apply NoDup_Permutation; [apply NoDup_keys..|].
  intros x. rewrite !elem_of_keys. by apply shrinks_is_Some.
Qed.

Lemma unassigned_shrinks D D' a :
  shrinks D D' → length (unassigned D' a) = length (unassigned D a).
Proof. intros H. unfold unassigned. by rewrite (keys_shrinks _ _ H). Qed.

Lemma unassigned_dict_set D a var value :
  is_Some (D !! var) → var ∉ a.*1 →
  length (unassigned D (dict_set var value a)) < length (unassigned D a).
Proof.
  intros HD Hvar. unfold unassigned.
  assert (filter (λ v, dict_mem v (dict_set var value a) = false) (keys D)
          = filter (λ v, v ≠ var) (filter (λ v, dict_mem v a = false) (keys D))) as ->.
  { rewrite list_filter_filter. apply list_filter_iff. intros v.
    rewrite !dict_mem_false, elem_of_dict_set_keys. tauto. }
  apply (length_filter_lt _ _ var); [|naive_solver].
  apply list_elem_of_filter. split; [by apply dict_mem_false|by apply elem_of_keys].
Qed.

Lemma assignment_complete_spec D a :
  assignment_complete D a = true ↔ ∀ v, is_Some (D !! v) → v ∈ a.*1.
Proof.
  unfold assignment_complete. rewrite forallb_forall.
  setoid_rewrite <- list_elem_of_In. setoid_rewrite elem_of_keys.
  by setoid_rewrite dict_mem_true.
Qed.

Lemma try_value_not_fuel cw rec var value D a :
  (∀ D1, shrinks D D1 → rec D1 (dict_set var value a) ≠ OutOfFuel) →
  try_value cw rec var value D a ≠ OutOfFuel.
Proof.
  intros Hrec. unfold try_value.
  apply bind_not_fuel; [apply consistent_not_fuel|]. intros [] _; simpl.
  - apply bind_not_fuel; [apply ac3_terminates|]. intros [[] D1] Hac; simpl.
    + apply bind_not_fuel; [by eapply Hrec, ac3_shrinks|].
      intros [[[r'|] D2] a2] _; [done|].
      apply bind_not_fuel; [apply dict_pop_not_fuel|done].
    + apply bind_not_fuel; [apply dict_pop_not_fuel|done].
  - apply bind_not_fuel; [apply dict_pop_not_fuel|done].
Qed.

Lemma try_values_not_fuel cw fuel var values D0 D a :
  (∀ D1 a1, length (unassigned D1 a1) < fuel → backtrack_rec cw fuel D1 a1 ≠ OutOfFuel) →
  is_Some (D0 !! var) → var ∉ a.*1 → length (unassigned D0 a) ≤ fuel →
  shrinks D0 D →
  try_values cw (backtrack_rec cw fuel) var values D a ≠ OutOfFuel.
Proof.
  intros IHf HD Hvar Hlen. revert D.
  induction values as [|value values IH]; intros D Hs; simpl; [done|].
  apply bind_not_fuel.
  - apply try_value_not_fuel. intros D1 Hs1. apply IHf.
    rewrite (unassigned_shrinks D0 D1) by by eapply shrinks_trans.
    pose proof (unassigned_dict_set D0 a var value HD Hvar). lia.
  - intros b Hb. apply try_value_post in Hb; [|apply backtrack_rec_post|done].
    destruct b as [r|D1 a1]; [done|]. destruct Hb as [Hs1 ->].
    apply IH. by eapply shrinks_trans.
Qed.

Lemma backtrack_rec_terminates cw fuel D a :
  length (unassigned D a) < fuel → backtrack_rec cw fuel D a ≠ OutOfFuel.
Proof.
  revert D a. induction fuel as [|fuel IH]; intros D a Hlen; [lia|].
  cbn [backtrack_rec]. destruct (assignment_complete D a); [done|].
  apply bind_not_fuel; [apply select_unassigned_variable_not_fuel|].
  intros var [Hvar HD]%select_unassigned_variable_Ok.
  apply bind_not_fuel; [apply order_domain_values_not_fuel|]. intros values _.
  eapply try_values_not_fuel; eauto; [lia|apply shrinks_refl].
Qed.

Theorem backtrack_terminates cw D a : backtrack cw D a ≠ OutOfFuel.
Proof. apply backtrack_rec_terminates. lia. Qed.

Theorem solve_terminates cw : solve cw ≠ OutOfFuel.
Proof.
  unfold solve. apply bind_not_fuel; [apply ac3_terminates|].
  intros [b D1] _. apply backtrack_terminates.
Qed.

(** ** Facts about the example puzzles *)
Lemma crossing_symmetric ws : overlaps_symmetric (crossing ws).
Proof.
  intros x y nx ny. simpl. repeat case_decide; naive_solver.
Qed.

Lemma crossing_neighbors_cover ws D : neighbors_cover (crossing ws) D.
Proof.
  intros x z _ Hne. simpl. repeat case_decide; try naive_solver; set_solver.
Qed.

Lemma crossing_in_bounds ws : overlaps_in_bounds (crossing ws).
Proof.
  intros x y nx ny. simpl. repeat case_decide; naive_solver (simpl; lia).
Qed.

(** ** The claims *)

Lemma enforce_node_consistency_lookup (D : domains) v :
  enforce_node_consistency D !! v = fits v <$> D !! v.
Proof.
  unfold enforce_node_consistency. rewrite enforce_node_consistency_foldl.
  destruct (decide (v ∈ keys D)) as [|Hn]; [done|].
  rewrite elem_of_keys in Hn. destruct (D !! v); [|done]. destruct Hn; eauto.
Qed.

Lemma enforce_node_consistency_node_consistent (D : domains) :
  node_consistent (enforce_node_consistency D).
Proof.
  intros v s w. rewrite enforce_node_consistency_lookup.
  destruct (D !! v) as [s0|]; [|done].
  intros [= <-]. unfold fits. rewrite elem_of_filter. tauto.
Qed.

(** Claim C7.  After [enforce_node_consistency] every word left in
    [domain(v)] has length [v.length]; the store it leaves is the old one
    with each domain filtered by that test, and this is all it does (the
    model returns the new store, the code returns nothing). *)
Theorem enforce_node_consistency_spec (D : domains) :
  node_consistent (enforce_node_consistency D) ∧
  (∀ v, enforce_node_consistency D !! v = fits v <$> D !! v).
Proof.
  split; [apply enforce_node_consistency_node_consistent|].
  apply enforce_node_consistency_lookup.
Qed.

(** Claim C8.  With a symmetric overlap map, [ac3()] on an
    arc-consistent store returns [True] and leaves every domain as it
    is; hence, when the neighbours of a variable include every variable
    that overlaps it, a second run of [ac3()] after a run that returned
    [True] changes nothing and returns [True]. *)
Theorem ac3_fixed_point cw D :
  overlaps_symmetric cw →
  (arc_consistent cw D → ac3 cw D None = Ok (true, D)) ∧
  (neighbors_cover cw D → ∀ D1,
     ac3 cw D None = Ok (true, D1) → ac3 cw D1 None = Ok (true, D1)).
Proof.
  intros Hsym. split.
  - by apply ac3_arc_consistent.
  - intros Hcov D1 H. apply ac3_arc_consistent; [done|].
    by eapply ac3_true_arc_consistent.
Qed.

(** On the crossing puzzle with cat, ate and dog, a first run of [ac3]
    leaves cat to the across run and ate to the down run; a second run
    changes nothing. *)
Lemma ac3_fixed_point_witness :
  let cw := crossing {["cat"; "ate"; "dog"]} in
  let D : domains := {[across3 := {["cat"]}; down3 := {["ate"]}]} in
  ac3 cw (init_domains cw) None = Ok (true, D) ∧
  arc_consistent cw D ∧
  ac3 cw D None = Ok (true, D).
Proof.
  intros cw D.
  assert (Hrun : ac3 cw (init_domains cw) None = Ok (true, D)) by (vm_compute; reflexivity).
  assert (Hac : arc_consistent cw D).
  { apply (ac3_true_arc_consistent cw (init_domains cw)); [|exact Hrun].
    apply crossing_neighbors_cover. }
  split; [exact Hrun|]. split; [exact Hac|].
  exact (proj1 (ac3_fixed_point cw D (crossing_symmetric _)) Hac).
Defined.

(** Claim C6, as the code has it.  When [revise(x, y)] shrinks
    [domain(x)] without emptying it, the turn appends the arc
    [(neighbor, x)] for every neighbour of [x], [y] included, and the
    loop goes on with the rest of the queue followed by these arcs. *)
Theorem ac3_enqueues_all_neighbors cw D x y D1 dx :
  revise cw D x y = Ok (true, D1) → D1 !! x = Some dx → dx ≠ ∅ →
  ac3_turn cw D (x, y) = Ok (Enqueue ((λ neighbor, (neighbor, x)) <$> neighbors cw x), D1) ∧
  ∀ fuel rest,
    ac3_loop cw (S fuel) ((x, y) :: rest) D =
    ac3_loop cw fuel (rest ++ ((λ neighbor, (neighbor, x)) <$> neighbors cw x)) D1.
Proof.
  intros Hr Hdx Hne.
  assert (Ht : ac3_turn cw D (x, y)
               = Ok (Enqueue ((λ neighbor, (neighbor, x)) <$> neighbors cw x), D1)).
  { unfold ac3_turn. rewrite Hr. cbn. unfold getitem. rewrite Hdx. cbn.
    rewrite decide_False; [done|]. intros Hsz. apply Hne.
    by apply leibniz_equiv, size_empty_iff. }
  split; [done|]. intros fuel rest. cbn [ac3_loop]. by rewrite Ht.
Qed.

(** On the crossing puzzle, revising (across, down) leaves cat alone in
    the domain of the across run and appends the arc (down, across). *)
Lemma ac3_enqueues_all_neighbors_witness :
  let cw := crossing {["cat"; "ate"; "dog"]} in
  ac3_turn cw (init_domains cw) (across3, down3)
  = Ok (Enqueue [(down3, across3)], <[across3 := {["cat"]}]> (init_domains cw)).
Proof.
  intros cw.
  apply (ac3_enqueues_all_neighbors cw (init_domains cw) across3 down3
           (<[across3 := {["cat"]}]> (init_domains cw)) {["cat"]}).
  - vm_compute. reflexivity.
  - vm_compute. reflexivity.
  - intros H. apply (f_equal size) in H. vm_compute in H. discriminate.
Defined.

(** Claim C6, as stated, fails: the arcs appended are not limited to the
    neighbours of [x] other than [y].  On the crossing puzzle the turn on
    (across, down) appends (down, across). *)
Lemma ac3_enqueues_reverse_arc :
  ¬ (∀ cw D x y D1 dx,
       revise cw D x y = Ok (true, D1) → D1 !! x = Some dx → dx ≠ ∅ →
       ∃ arcs, ac3_turn cw D (x, y) = Ok (Enqueue arcs, D1) ∧
         ∀ a, a ∈ arcs ↔ ∃ n, n ∈ neighbors cw x ∧ n ≠ y ∧ a = (n, x)).
Proof.
  intros H.
  set (cw := crossing {["cat"; "ate"; "dog"]}).
  destruct (H cw (init_domains cw) across3 down3
              (<[across3 := {["cat"]}]> (init_domains cw)) {["cat"]})
    as (arcs & Ht & Harcs).
  - vm_compute. reflexivity.
  - vm_compute. reflexivity.
  - intros E. apply (f_equal size) in E. vm_compute in E. discriminate.
  - assert (Hrun : ac3_turn cw (init_domains cw) (across3, down3)
                   = Ok (Enqueue [(down3, across3)],
                         <[across3 := {["cat"]}]> (init_domains cw)))
      by (vm_compute; reflexivity).
    rewrite Hrun in Ht. injection Ht as <-.
    destruct (proj1 (Harcs (down3, across3))) as (n & _ & Hn & [= <-]); [left|].
    by apply Hn.
Qed.

(** On a store that is arc-consistent the search removes nothing. *)
Lemma try_value_unchanged cw rec var value D a b :
  overlaps_symmetric cw → arc_consistent cw D →
  (∀ a1 r D' a', rec D a1 = Ok (r, D', a') → D' = D) →
  try_value cw rec var value D a = Ok b →
  match b with
  | Abandoned D' _ => D' = D
  | Found (_, D', _) => D' = D
  end.
Proof.
  intros Hsym Hac Hrec. unfold try_value.
  intros (c & _ & H)%bind_Ok. destruct c; simpl in H.
  - rewrite (ac3_arc_consistent cw D Hsym Hac) in H. cbn in H.
    apply bind_Ok in H as ([[r D2] a2] & Hr & H). apply Hrec in Hr as ->.
    destruct r.
    + by injection H as <-.
    + apply bind_Ok in H as (a3 & _ & H). by injection H as <-.
  - apply bind_Ok in H as (a2 & _ & H). by injection H as <-.
Qed.

Lemma try_values_unchanged cw rec var values D a r D' a' :
  overlaps_symmetric cw → arc_consistent cw D →
  (∀ a1 r D' a', rec D a1 = Ok (r, D', a') → D' = D) →
  try_values cw rec var values D a = Ok (r, D', a') → D' = D.
Proof.
  intros Hsym Hac Hrec. revert a. induction values as [|value values IH]; intros a; simpl.
  - by intros [= _ <- _].
  - intros (b & Hb & H)%bind_Ok.
    apply try_value_unchanged in Hb; [|done..].
    destruct b as [[[r1 D1] a1]|D1 a1]; subst D1.
    + by injection H as _ <- _.
    + by eapply IH.
Qed.

Lemma backtrack_rec_unchanged cw fuel D a r D' a' :
  overlaps_symmetric cw → arc_consistent cw D →
  backtrack_rec cw fuel D a = Ok (r, D', a') → D' = D.
Proof.
  intros Hsym Hac. revert a r D' a'.
  induction fuel as [|fuel IH]; intros a r D' a'; [done|].
  cbn [backtrack_rec]. destruct (assignment_complete D a).
  - by intros [= _ <- _].
  - intros (var & _ & (values & _ & H)%bind_Ok)%bind_Ok.
    eapply try_values_unchanged; eauto.
Qed.

Lemma try_value_shrinks cw rec var value D a b :
  (∀ D1 a1 r D2 a2, rec D1 a1 = Ok (r, D2, a2) → shrinks D1 D2) →
  try_value cw rec var value D a = Ok b →
  match b with
  | Abandoned D' _ => shrinks D D'
  | Found (_, D', _) => shrinks D D'
  end.
Proof.
  intros Hrec. unfold try_value.
  intros (c & _ & H)%bind_Ok. destruct c; simpl in H.
  - apply bind_Ok in H as ([arc_ok D1] & Hac%ac3_shrinks & H).
    destruct arc_ok; simpl in H.
    + apply bind_Ok in H as ([[r D2] a2] & Hr%Hrec & H).
      assert (shrinks D D2) by by eapply shrinks_trans.
      destruct r.
      * by injection H as <-.
      * apply bind_Ok in H as (a3 & _ & H). by injection H as <-.
    + apply bind_Ok in H as (a2 & _ & H). by injection H as <-.
  - apply bind_Ok in H as (a2 & _ & H). injection H as <-. apply shrinks_refl.
Qed.

Lemma backtrack_rec_shrinks cw fuel D a r D' a' :
  backtrack_rec cw fuel D a = Ok (r, D', a') → shrinks D D'.
Proof. intros H. by apply backtrack_rec_post in H as [? _]. Qed.

(** Claim C2, as the code has it.  [backtrack] never puts a word back
    into a domain: an abandoned branch, and a whole call, leave the store
    they found with some words removed.  Nothing is removed, so the store
    is exactly what it was before the branch, when it was arc-consistent
    (under a symmetric overlap map): [ac3] then finds nothing to
    remove. *)
Theorem backtrack_store cw D :
  (∀ fuel var value a D' a',
     try_value cw (backtrack_rec cw fuel) var value D a = Ok (Abandoned D' a') →
     shrinks D D' ∧ (overlaps_symmetric cw → arc_consistent cw D → D' = D)) ∧
  (∀ a r D' a',
     backtrack cw D a = Ok (r, D', a') →
     shrinks D D' ∧ (overlaps_symmetric cw → arc_consistent cw D → D' = D)).
Proof.
  split.
  - intros fuel var value a D' a' H. split.
    + apply try_value_shrinks in H; [done|]. intros *. apply backtrack_rec_shrinks.
    + intros Hsym Hac. apply try_value_unchanged in H; [done..|].
      intros a1 r D1 a2. by apply backtrack_rec_unchanged.
  - intros a r D' a' H. split.
    + by eapply backtrack_rec_shrinks.
    + intros Hsym Hac. by eapply backtrack_rec_unchanged.
Qed.

(** The word aab crosses itself: the initial store of the crossing
    puzzle with this one word is arc-consistent, and the search fails on
    it because the two words must differ. *)
Lemma aab_arc_consistent :
  arc_consistent (crossing {["aab"]}) (init_domains (crossing {["aab"]})).
Proof.
  apply (ac3_true_arc_consistent _ (init_domains (crossing {["aab"]})));
    [apply crossing_neighbors_cover|].
  vm_compute. reflexivity.
Qed.

(** The branch across = aab of the search on that store is abandoned and
    leaves the store as it was. *)
Lemma backtrack_store_witness :
  let cw := crossing {["aab"]} in
  let D' : domains := {[across3 := {["aab"]}; down3 := {["aab"]}]} in
  try_value cw (backtrack_rec cw 2) across3 "aab" (init_domains cw) []
  = Ok (Abandoned D' []) ∧
  shrinks (init_domains cw) D' ∧ D' = init_domains cw.
Proof.
  intros cw D'.
  assert (Hrun : try_value cw (backtrack_rec cw 2) across3 "aab" (init_domains cw) []
                 = Ok (Abandoned D' [])) by (vm_compute; reflexivity).
  split; [exact Hrun|].
  destruct (proj1 (backtrack_store cw (init_domains cw))
              2 across3 "aab"%string [] D' [] Hrun) as [Hs Heq].
  split; [exact Hs|].
  exact (Heq (crossing_symmetric _) aab_arc_consistent).
Defined.

(** Claim C2, as stated, fails.  On two crossing runs with the words cat
    and dog and the initial store, the branch across = cat is abandoned
    because [ac3] fails, and the domain of the across run is left
    empty. *)
Lemma abandoned_branch_keeps_removals :
  ¬ (∀ cw fuel var value D a D' a',
       try_value cw (backtrack_rec cw fuel) var value D a = Ok (Abandoned D' a') →
       D' = D).
Proof.
  intros H.
  set (cw := crossing {["cat"; "dog"]}).
  specialize (H cw 2 across3 "cat"%string (init_domains cw) []
                (<[across3 := ∅]> (init_domains cw)) []).
  assert (Hrun : try_value cw (backtrack_rec cw 2) across3 "cat" (init_domains cw) []
                 = Ok (Abandoned (<[across3 := ∅]> (init_domains cw)) []))
    by (vm_compute; reflexivity).
  apply H in Hrun. apply (f_equal (λ D : domains, size <$> D !! across3)) in Hrun.
  vm_compute in Hrun. discriminate.
Qed.

(** Claim C9.  When [backtrack] returns [None], the assignment is what
    it was when the call began. *)
Theorem backtrack_failure_restores cw D a D' a' :
  backtrack cw D a = Ok (None, D', a') → a' = a.
Proof. intros H. apply backtrack_rec_post in H as [_ H]. exact H. Qed.

(** With cat on the across run and the words cat and dog, no word fits
    the down run: the search fails and leaves the assignment alone. *)
Lemma backtrack_failure_restores_witness :
  let cw := crossing {["cat"; "dog"]} in
  backtrack cw (init_domains cw) [(across3, "cat"%string)]
  = Ok (None, init_domains cw, [(across3, "cat"%string)]) ∧
  [(across3, "cat"%string)] = [(across3, "cat"%string)].
Proof.
  intros cw.
  assert (Hrun : backtrack cw (init_domains cw) [(across3, "cat"%string)]
                 = Ok (None, init_domains cw, [(across3, "cat"%string)]))
    by (vm_compute; reflexivity).
  split; [exact Hrun|].
  exact (backtrack_failure_restores cw _ _ _ _ Hrun).
Defined.

(** The store [solve] starts from has the variables of the puzzle as
    its keys. *)
Lemma enforce_node_consistency_init cw v :
  is_Some (enforce_node_consistency (init_domains cw) !! v) ↔ v ∈ variables cw.
Proof.
  unfold enforce_node_consistency. rewrite enforce_node_consistency_foldl.
  unfold init_domains.
  assert (is_Some (gset_to_gmap (words cw) (variables cw) !! v) ↔ v ∈ variables cw) as <-.
  { rewrite lookup_gset_to_gmap. unfold guard. case_decide; simpl.
    - split; eauto.
    - split; [by intros [? ?]|done]. }
  destruct (decide _); [|done]. by rewrite fmap_is_Some.
Qed.

(** Claim C1.  An assignment returned by [backtrack], called on an
    assignment that is incomplete or already consistent, and an
    assignment returned by [solve], for any puzzle and word list, gives
    a word to every variable and is consistent: every word has the
    length of its variable, the words of distinct variables differ, and
    two assigned neighbours carry the same character at their
    overlap. *)
Theorem backtrack_sound cw :
  (∀ D a r D' a',
     NoDup a.*1 →
     assignment_complete D a = false ∨ consistent_assignment cw a →
     backtrack cw D a = Ok (Some r, D', a') →
     (∀ v, is_Some (D !! v) → v ∈ r.*1) ∧ consistent_assignment cw r) ∧
  (∀ r D' a',
     solve cw = Ok (Some r, D', a') →
     (∀ v, v ∈ variables cw → v ∈ r.*1) ∧ consistent_assignment cw r).
Proof.
  assert (Hb : ∀ D a r D' a',
     NoDup a.*1 →
     assignment_complete D a = false ∨ consistent_assignment cw a →
     backtrack cw D a = Ok (Some r, D', a') →
     (∀ v, is_Some (D !! v) → v ∈ r.*1) ∧ consistent_assignment cw r).
  { intros D a r D' a' Hnd Hpre H.
    pose proof H as H0.
    apply backtrack_rec_post in H as (Hs & -> & Hcomp & Hnd' & Hcons).
    split.
    - intros v Hv. rewrite assignment_complete_spec in Hcomp. apply Hcomp.
      by apply (shrinks_is_Some D D').
    - destruct Hcons as [->|Hc]; [|apply consistent_true; auto].
      destruct Hpre as [Hinc|?]; [|done].
      unfold backtrack in H0. cbn [backtrack_rec] in H0. rewrite Hinc in H0.
      apply bind_Ok in H0 as (var & [Hvar _]%select_unassigned_variable_Ok
                                & (values & _ & H0)%bind_Ok).
      apply try_values_post in H0 as [_ (_ & _ & _ & Hc)];
        [|apply backtrack_rec_post|done].
      apply consistent_true; auto. }
  split; [exact Hb|].
  intros r D' a'. unfold solve. intros ([b D1] & Hac & H)%bind_Ok.
  apply ac3_shrinks in Hac.
  apply Hb in H as [Hcomp Hcons]; [|apply NoDup_nil_2|].
  - split; [|done]. intros v Hv. apply Hcomp.
    apply (shrinks_is_Some _ _ _ Hac). by apply enforce_node_consistency_init.
  - right. split_and!; intros *; by intros ?%elem_of_nil.
Qed.

(** [solve] on the crossing puzzle with cat, ate, dog and go. *)
Lemma backtrack_sound_witness :
  let cw := crossing {["cat"; "ate"; "dog"; "go"]} in
  let r := [(across3, "cat"%string); (down3, "ate"%string)] in
  (∀ v, v ∈ variables cw → v ∈ r.*1) ∧ consistent_assignment cw r.
Proof.
  intros cw r.
  assert (Hrun : solve cw
                 = Ok (Some r, {[across3 := {["cat"]}; down3 := {["ate"]}]}, r))
    by (vm_compute; reflexivity).
  exact (proj2 (backtrack_sound cw) _ _ _ Hrun).
Defined.

(** Claim C3.  The code breaks a tie on the least domain size by the
    smallest degree, not the largest.  On the arch puzzle with the words
    cat, co, to, ta, [ac3] leaves one word to the first row (degree 2)
    and one to the first column (degree 1), and the first column is
    selected. *)
Lemma select_unassigned_variable_lowest_degree :
  let cw := arch {["cat"; "co"; "to"; "ta"]} in
  let D : domains :=
    {[first_row := {["cat"]}; first_column := {["co"]}; last_column := {["to"; "ta"]}]} in
  ac3 cw (enforce_node_consistency (init_domains cw)) None = Ok (true, D) ∧
  select_unassigned_variable cw D [] = Ok first_column ∧
  length (neighbors cw first_column) = 1 ∧ length (neighbors cw first_row) = 2.
Proof. vm_compute. done. Qed.

(** Claim C4.  [ac3] answers [True] with an empty domain in the store
    it leaves: one run, or two crossing runs, of three cells and no word
    of three letters. *)
Lemma ac3_true_with_empty_domain :
  ac3 (single {["ab"]}) (enforce_node_consistency (init_domains (single {["ab"]}))) None
  = Ok (true, {[across3 := ∅]}) ∧
  ac3 (crossing {["ab"]}) (enforce_node_consistency (init_domains (crossing {["ab"]}))) None
  = Ok (true, {[across3 := ∅; down3 := ∅]}).
Proof. split; vm_compute; reflexivity. Qed.

(** The revision of (across, down) on the initial store of the crossing
    puzzle with cat, ate and dog. *)
Lemma revise_spec_witness :
  let cw := crossing {["cat"; "ate"; "dog"]} in
  let dx : gset string := {["cat"; "ate"; "dog"]} in
  ∃ b D' dx',
    revise cw (init_domains cw) across3 down3 = Ok (b, D') ∧
    D' = <[across3 := dx']> (init_domains cw) ∧
    (∀ w, w ∈ dx' ↔ w ∈ dx ∧ supported 1 0 dx w) ∧
    (b = true ↔ ∃ w, w ∈ dx ∧ w ∉ dx').
Proof.
  intros cw dx.
  apply (revise_spec cw (init_domains cw) across3 down3 dx dx).
  - vm_compute. reflexivity.
  - vm_compute. reflexivity.
  - intros nx ny [= <- <-].
    split; intros w Hw; unfold dx in Hw;
      rewrite !elem_of_union, !elem_of_singleton in Hw;
      destruct Hw as [[->| ->]| ->]; simpl; lia.
Defined.

(** The crossing puzzle after node consistency, with cat assigned to the
    across run. *)
Lemma overlap_accesses_in_bounds_witness :
  let cw := crossing {["cat"; "ate"; "dog"; "go"]} in
  let D := enforce_node_consistency (init_domains cw) in
  let a := [(across3, "cat"%string)] in
  (∀ x y, revise cw D x y ≠ Raise IndexError) ∧
  consistent cw a ≠ Raise IndexError ∧
  (∀ var, order_domain_values cw D var a ≠ Raise IndexError).
Proof.
  intros cw D a.
  apply (overlap_accesses_in_bounds cw D a).
  - apply enforce_node_consistency_node_consistent.
  - intros v w [= -> ->]%list_elem_of_singleton. reflexivity.
  - apply crossing_in_bounds.
Defined.

(** * Further properties of the code *)

(** ** [select_unassigned_variable]: what is returned, and when nothing is *)
Lemma select_loop_total cw D a vs st :
  (∀ v, v ∈ vs → is_Some (D !! v)) → ∃ st', select_loop cw D a vs st = Ok st'.
Proof.
  revert st. induction vs as [|var vs IH]; intros st Hvs; simpl; [eauto|].
  assert (Hvs' : ∀ v, v ∈ vs → is_Some (D !! v)) by (intros; apply Hvs; set_solver).
  destruct (dict_mem var a); [by apply IH|].
  destruct (Hvs var) as [dv Hdv]; [set_solver|].
  unfold getitem. rewrite Hdv. cbn.
  destruct st as [[lowest order]|]; [|by apply IH].
  repeat case_decide; by apply IH.
Qed.

Lemma sorted_keys_nil {K} (d : list (K * nat)) : sorted_keys d = [] → d = [].
Proof.
  unfold sorted_keys. intros H%fmap_nil_inv.
  apply Permutation_nil_r. by rewrite <- (sorted_by_perm snd d), H.
Qed.

Lemma select_unassigned_variable_total cw D a :
  assignment_complete D a = false →
  ∃ var dv,
    select_unassigned_variable cw D a = Ok var ∧
    (var ∉ a.*1) ∧ D !! var = Some dv ∧
    ∀ v dv', D !! v = Some dv' → v ∉ a.*1 →
      size dv ≤ size dv' ∧
      (size dv' = size dv → length (neighbors cw var) ≤ length (neighbors cw v)).
Proof.
  intros Hinc.
  assert (∃ var, select_unassigned_variable cw D a = Ok var) as [var Hvar].
  { unfold select_unassigned_variable.
    destruct (select_loop_total cw D a (keys D) None) as [st Hst].
    { intros v. by rewrite elem_of_keys. }
    rewrite Hst. cbn.
    pose proof (select_loop_spec _ _ _ _ [] _ _ Hst) as Hspec.
    rewrite app_nil_l in Hspec.
    destruct st as [[lowest order]|].
    - destruct Hspec as [Hne _]; [by intros v ?%elem_of_nil|].
      destruct (sorted_keys order) as [|v l] eqn:Hs; [|eauto].
      by apply sorted_keys_nil in Hs.
    - exfalso. assert (assignment_complete D a = true); [|congruence].
      apply assignment_complete_spec. intros v Hv.
      apply Hspec; [by intros ? ?%elem_of_nil|]. by apply elem_of_keys. }
  exists var.
  destruct (select_unassigned_variable_spec _ _ _ _ Hvar) as (Hna & dv & Hdv & Hmin).
  exists dv. done.
Qed.

(** Property X10.  On an incomplete assignment [select_unassigned_variable]
    returns a variable without a word, of the least domain size among those,
    and of the least number of neighbours among those of that size. *)
Theorem select_unassigned_variable_choice cw D a :
  assignment_complete D a = false →
  ∃ var dv,
    select_unassigned_variable cw D a = Ok var ∧
    (var ∉ a.*1) ∧ D !! var = Some dv ∧
    ∀ v dv', D !! v = Some dv' → v ∉ a.*1 →
      size dv ≤ size dv' ∧
      (size dv' = size dv → length (neighbors cw var) ≤ length (neighbors cw v)).
Proof. apply select_unassigned_variable_total. Qed.

(** Property X11.  On a complete assignment [select_unassigned_variable] raises
    [UnboundLocalError]: [order] is never bound. *)
Theorem select_unassigned_variable_none_left cw D a :
  assignment_complete D a = true →
  select_unassigned_variable cw D a = Raise UnboundLocalError.
Proof.
  intros Hc. rewrite assignment_complete_spec in Hc.
  assert (H : ∀ vs, (∀ v, v ∈ vs → v ∈ a.*1) → select_loop cw D a vs None = Ok None).
  { induction vs as [|v vs IH]; intros Hvs; simpl; [done|].
    assert (dict_mem v a = true) as -> by (apply dict_mem_true, Hvs; set_solver).
    apply IH. intros; apply Hvs; set_solver. }
  unfold select_unassigned_variable. rewrite H; [done|].
  intros v Hv%elem_of_keys. by apply Hc.
Qed.

(** ** [ac3]: what its answer means, and how long it runs *)
(** Property X3.  When [ac3()] returns [True], and the neighbours of a variable
    include every variable of the store that overlaps it, every arc of the
    store it leaves is consistent. *)
Theorem ac3_true_leaves_arc_consistent cw D D' :
  neighbors_cover cw D → ac3 cw D None = Ok (true, D') → arc_consistent cw D'.
Proof. apply ac3_true_arc_consistent. Qed.

Lemma ac3_loop_more_fuel cw fuel fuel' queue D :
  fuel ≤ fuel' → ac3_loop cw fuel queue D ≠ OutOfFuel →
  ac3_loop cw fuel' queue D = ac3_loop cw fuel queue D.
Proof.
  revert fuel' queue D. induction fuel as [|fuel IH]; intros fuel' queue D Hle; [done|].
  destruct fuel' as [|fuel']; [lia|]. cbn [ac3_loop].
  destruct queue as [|a rest]; [done|].
  destruct (ac3_turn cw D a) as [[t D1]| |]; cbn; [|done..].
  destruct t; [done|]. apply IH. lia.
Qed.

(** Property X7.  The loop of [ac3] ends within the length of the queue plus
    the weight of the store (for each variable, the size of its domain times
    one more than the number of its neighbours) turns: with any allowance
    above that it answers what [ac3] answers. *)
Theorem ac3_loop_bound cw queue D fuel :
  length queue + domain_weight cw D < fuel →
  ac3_loop cw fuel queue D ≠ OutOfFuel ∧
  ac3_loop cw fuel queue D = ac3_loop cw (ac3_fuel cw queue D) queue D.
Proof.
  intros Hlt. split; [by apply ac3_loop_terminates|].
  apply ac3_loop_more_fuel; [unfold ac3_fuel; lia|].
  apply ac3_loop_terminates. unfold ac3_fuel. lia.
Qed.

(** ** [backtrack]: depth of the recursion *)
Lemma try_value_more_fuel cw rec rec' var value D a :
  (∀ D1 a1, rec D1 a1 ≠ OutOfFuel → rec' D1 a1 = rec D1 a1) →
  try_value cw rec var value D a ≠ OutOfFuel →
  try_value cw rec' var value D a = try_value cw rec var value D a.
Proof.
  intros Hrec. unfold try_value.
  generalize (ac3 cw D None). intros r.
  destruct (consistent cw (dict_set var value a)) as [[]| |]; cbn; [|reflexivity..].
  destruct r as [[[] D1]| |]; cbn; [|reflexivity..].
  intros H. rewrite Hrec; [done|]. intros E. by rewrite E in H.
Qed.

Lemma try_values_more_fuel cw rec rec' var values D a :
  (∀ D1 a1, rec D1 a1 ≠ OutOfFuel → rec' D1 a1 = rec D1 a1) →
  try_values cw rec var values D a ≠ OutOfFuel →
  try_values cw rec' var values D a = try_values cw rec var values D a.
Proof.
  intros Hrec. revert D a. induction values as [|value values IH]; intros D a; [done|].
  cbn [try_values]. intros H.
  rewrite (try_value_more_fuel cw rec rec'); [|done|].
  - destruct (try_value cw rec var value D a) as [[r|D1 a1]| |]; cbn in *; auto.
  - intros E. by rewrite E in H.
Qed.

Lemma backtrack_rec_more_fuel cw fuel fuel' D a :
  fuel ≤ fuel' → backtrack_rec cw fuel D a ≠ OutOfFuel →
  backtrack_rec cw fuel' D a = backtrack_rec cw fuel D a.
Proof.
  revert fuel' D a. induction fuel as [|fuel IH]; intros fuel' D a Hle; [done|].
  destruct fuel' as [|fuel']; [lia|]. cbn [backtrack_rec].
  destruct (assignment_complete D a); [done|].
  destruct (select_unassigned_variable cw D a) as [var| |]; cbn; [|done..].
  generalize (order_domain_values cw D var a). intros [values| |]; cbn; [|done..].
  apply try_values_more_fuel. intros D1 a1. apply IH. lia.
Qed.

(** Property X13.  The recursion of [backtrack] is at most as deep as the
    number of variables without a word, plus one: with any allowance above
    that it answers what [backtrack] answers. *)
Theorem backtrack_depth_bound cw D a fuel :
  length (unassigned D a) < fuel →
  backtrack_rec cw fuel D a ≠ OutOfFuel ∧
  backtrack_rec cw fuel D a = backtrack cw D a.
Proof.
  intros Hlt. split; [by apply backtrack_rec_terminates|].
  apply backtrack_rec_more_fuel; [lia|].
  apply backtrack_rec_terminates. lia.
Qed.

(** ** Invariants of the store *)
Lemma node_consistent_shrinks D D' : shrinks D D' → node_consistent D → node_consistent D'.
Proof.
  intros Hs Hnc v s w Hv Hw. specialize (Hs v). rewrite Hv in Hs.
  destruct (D !! v) as [s0|] eqn:Hv0; [|done]. apply (Hnc v s0 w Hv0). by apply Hs.
Qed.

Lemma shrinks_dom D D' : shrinks D D' → dom D' = dom D.
Proof.
  intros Hs. apply set_eq. intros v. rewrite !elem_of_dom. by apply shrinks_is_Some.
Qed.

(** Property X1.  A second call of [enforce_node_consistency] changes nothing. *)
Theorem enforce_node_consistency_idempotent (D : domains) :
  enforce_node_consistency (enforce_node_consistency D) = enforce_node_consistency D.
Proof.
  apply map_eq. intros v. rewrite !enforce_node_consistency_lookup.
  destruct (D !! v) as [s|]; simpl; [|done]. by rewrite fits_idemp.
Qed.

(** Property X12.  [revise], [ac3] and [backtrack] keep a node-consistent store
    node-consistent, and keep its keys. *)
Theorem search_keeps_node_consistency cw D :
  node_consistent D →
  (∀ x y b D', revise cw D x y = Ok (b, D') → node_consistent D' ∧ dom D' = dom D) ∧
  (∀ arcs b D', ac3 cw D arcs = Ok (b, D') → node_consistent D' ∧ dom D' = dom D) ∧
  (∀ a r D' a', backtrack cw D a = Ok (r, D', a') → node_consistent D' ∧ dom D' = dom D).
Proof.
  intros Hnc.
  assert (H : ∀ D', shrinks D D' → node_consistent D' ∧ dom D' = dom D).
  { intros D' Hs. split; [by eapply node_consistent_shrinks|by apply shrinks_dom]. }
  split; [|split].
  - intros x y b D' Hr. apply H. destruct b.
    + apply revise_true in Hr as (nx & ny & dx & dx0 & _ & Hdx & -> & Hsub & _).
      eapply shrinks_insert; [done|]. set_solver.
    + apply revise_false in Hr as [-> _]. apply shrinks_refl.
  - intros arcs b D' Hr. apply H. by eapply ac3_shrinks.
  - intros a r D' a' Hr. apply H. by eapply backtrack_rec_shrinks.
Qed.

Lemma init_domains_lookup cw v :
  init_domains cw !! v = if decide (v ∈ variables cw) then Some (words cw) else None.
Proof.
  unfold init_domains. rewrite lookup_gset_to_gmap. unfold guard.
  by case_decide.
Qed.

(** Property X17.  After [solve] the store has a domain for each variable of
    the puzzle and for no other, and every word left in a domain is a word
    of the word list of the length of its variable. *)
Theorem solve_store cw r D' a' :
  solve cw = Ok (r, D', a') →
  dom D' = variables cw ∧
  ∀ v s w, D' !! v = Some s → w ∈ s → w ∈ words cw ∧ String.length w = var_length v.
Proof.
  unfold solve. intros ([b D1] & Hac%ac3_shrinks & H%backtrack_rec_shrinks)%bind_Ok.
  pose proof (shrinks_trans _ _ _ Hac H) as Hs. split.
  - rewrite (shrinks_dom _ _ Hs). apply set_eq. intros v.
    rewrite elem_of_dom. apply enforce_node_consistency_init.
  - intros v s w Hv Hw. specialize (Hs v). rewrite Hv in Hs.
    rewrite enforce_node_consistency_lookup, init_domains_lookup in Hs.
    case_decide; simpl in Hs; [|done].
    apply Hs in Hw. unfold fits in Hw. apply elem_of_filter in Hw. tauto.
Qed.

(** ** [revise] twice *)
(** Property X2.  After [revise(x, y)] on two different variables, whatever it
    returned, a second [revise(x, y)] removes nothing and returns [False]. *)
Theorem revise_again cw D x y b D' :
  x ≠ y → revise cw D x y = Ok (b, D') → revise cw D' x y = Ok (false, D').
Proof.
  intros Hne Hr. unfold revise in *.
  destruct (overlaps cw x y) as [[nx ny]|] eqn:Hov; [|by injection Hr as _ <-].
  apply bind_Ok in Hr as (dx & Hdx%getitem_Ok & (inc & Hscan & H)%bind_Ok).
  pose proof (revise_scan_Ok _ _ _ _ Hscan) as [Hall Hinc].
  assert (Hchk : ∀ w, check cw D' x y w = check cw D x y w).
  { intros w. unfold check. rewrite Hov. case_decide; injection H as _ <-; [done|].
    unfold getitem. by rewrite lookup_insert_ne. }
  assert (Hdx' : D' !! x = Some (dx ∖ inc)).
  { case_decide as Hi; injection H as _ <-.
    - rewrite Hdx, Hi. f_equal. set_solver.
    - by rewrite lookup_insert_eq. }
  unfold getitem. rewrite Hdx'. cbn.
  assert (Hscan' : revise_scan (check cw D' x y) (elements (dx ∖ inc)) ∅ = Ok ∅).
  { assert (Hgen : ∀ ws, (∀ w, w ∈ ws → check cw D x y w = Ok true) →
                     revise_scan (check cw D' x y) ws ∅ = Ok ∅).
    { induction ws as [|w ws IH]; intros Hws; simpl; [done|].
      rewrite Hchk, Hws by set_solver. cbn. apply IH. intros; apply Hws; set_solver. }
    apply Hgen. intros w [Hw Hn]%elem_of_elements%elem_of_difference.
    destruct (Hall w) as [[] Hc]; [by apply elem_of_elements|done|].
    exfalso. apply Hn, Hinc. right. split; [by apply elem_of_elements|done]. }
  rewrite Hscan'. cbn. by rewrite decide_True.
Qed.

(** ** [consistent] decides consistency *)
Lemma distinct_loop_complete (a : assignment) var w vs :
  NoDup a.*1 → (var, w) ∈ a →
  (∀ v, v ∈ vs → v ≠ var → ∃ w', (v, w') ∈ a ∧ w ≠ w') →
  distinct_loop a var vs = Ok true.
Proof.
  intros Hnd Hvar. induction vs as [|v vs IH]; intros Hvs; simpl; [done|].
  case_decide as Hv; [apply IH; intros; apply Hvs; set_solver|].
  destruct (Hvs v) as (w' & Hw' & Hne); [set_solver|done|].
  rewrite (dict_get_elem _ _ _ Hnd Hvar), (dict_get_elem _ _ _ Hnd Hw'). cbn.
  rewrite decide_False by done. apply IH. intros; apply Hvs; set_solver.
Qed.

Lemma neighbor_loop_complete cw (a : assignment) var w ns :
  NoDup a.*1 → (var, w) ∈ a →
  (∀ n nv nn w', n ∈ ns → overlaps cw var n = Some (nv, nn) → (n, w') ∈ a →
     agree nv nn w w') →
  neighbor_loop cw a var ns = Ok true.
Proof.
  intros Hnd Hvar. induction ns as [|n ns IH]; intros Hns; simpl; [done|].
  assert (IH' : neighbor_loop cw a var ns = Ok true).
  { apply IH. intros n0 nv nn w' ?. apply Hns. set_solver. }
  destruct (overlaps cw var n) as [[nv nn]|] eqn:Hov; [|done].
  destruct (dict_mem n a) eqn:Hmem; [|done].
  apply dict_mem_true, list_elem_of_fmap in Hmem as ([n' w'] & -> & Hin). simpl in *.
  rewrite (dict_get_elem _ _ _ Hnd Hvar), (dict_get_elem _ _ _ Hnd Hin). cbn.
  destruct (Hns n' nv nn w') as (c & Hc1 & Hc2); [set_solver|done|done|].
  unfold index. rewrite Hc1, Hc2. cbn. by rewrite decide_False by auto.
Qed.

Lemma consistent_complete cw a :
  NoDup a.*1 → consistent_assignment cw a → consistent cw a = Ok true.
Proof.
  intros Hnd (Hlen & Hdis & Hag). unfold consistent.
  assert (H : ∀ vs, (∀ v, v ∈ vs → v ∈ a.*1) → consistent_loop cw a vs = Ok true).
  { induction vs as [|var vs IH]; intros Hvs; simpl; [done|].
    assert (var ∈ a.*1) as ([var' w] & -> & Hin)%list_elem_of_fmap
      by (apply Hvs; set_solver).
    simpl. rewrite (dict_get_elem _ _ _ Hnd Hin). cbn.
    rewrite decide_False by (rewrite (Hlen _ _ Hin); auto).
    rewrite (distinct_loop_complete a var' w); [cbn|done|done|].
    - rewrite (neighbor_loop_complete cw a var' w); [cbn|done|done|].
      + apply IH. intros; apply Hvs; set_solver.
      + intros n nv nn w' Hn Hov Hin'. by eapply Hag.
    - intros v ([v' w'] & -> & Hin')%list_elem_of_fmap Hne. simpl in *.
      exists w'. split; [done|]. eapply Hdis; eauto. }
  by apply H.
Qed.

(** Property X8.  [consistent] returns [True] exactly on the consistent
    assignments: lengths fit, the words of different variables differ, and
    neighbours agree at their overlap. *)
Theorem consistent_decides cw a :
  NoDup a.*1 → consistent cw a = Ok true ↔ consistent_assignment cw a.
Proof.
  intros Hnd. split; [by apply consistent_true|by apply consistent_complete].
Qed.

(** ** [ac3] keeps every solution *)
Lemma sol_agrees_shrinks cw D D' s : shrinks D D' → sol_agrees cw D s → sol_agrees cw D' s.
Proof.
  intros Hs Hag x y nx ny Hx Hy. apply Hag; by apply (shrinks_is_Some D D').
Qed.

Lemma sol_distinct_shrinks D D' s : shrinks D D' → sol_distinct D s → sol_distinct D' s.
Proof.
  intros Hs Hd x y Hx Hy. apply Hd; by apply (shrinks_is_Some D D').
Qed.

Lemma neighbors_closed_shrinks cw D D' :
  shrinks D D' → neighbors_closed cw D → neighbors_closed cw D'.
Proof.
  intros Hs Hc x y Hx Hy. apply (shrinks_is_Some D D'); [done|].
  eapply Hc; [|done]. by apply (shrinks_is_Some D D').
Qed.

Lemma revise_keeps_solution cw D x y b D' s :
  revise cw D x y = Ok (b, D') → sol_in D s → sol_agrees cw D s → sol_in D' s.
Proof.
  unfold revise. intros Hr Hin Hag.
  destruct (overlaps cw x y) as [[nx ny]|] eqn:Hov; [|by injection Hr as _ <-].
  apply bind_Ok in Hr as (dx & Hdx%getitem_Ok & (inc & Hscan & H)%bind_Ok).
  case_decide; injection H as _ <-; [done|].
  apply revise_scan_Ok in Hscan as [Hall Hinc].
  intros z dz Hz. destruct (decide (x = z)) as [<-|Hne].
  - rewrite lookup_insert_eq in Hz. injection Hz as <-.
    pose proof (Hin x dx Hdx) as Hsx. apply elem_of_difference. split; [done|].
    intros [?|[_ Hf]]%Hinc; [set_solver|].
    apply (check_Ok _ _ _ _ _ _ _ _ Hov) in Hf as (dy & Hdy & Hb).
    assert (Hsup : supported nx ny dy (s x)); [|by apply Hb in Hsup].
    exists (s y). split; [by apply Hin|]. apply Hag; eauto.
  - rewrite lookup_insert_ne in Hz by done. by apply Hin.
Qed.

Lemma ac3_loop_keeps_solution cw fuel queue D b D' s :
  ac3_loop cw fuel queue D = Ok (b, D') → sol_in D s → sol_agrees cw D s →
  b = true ∧ sol_in D' s.
Proof.
  revert queue D. induction fuel as [|fuel IH]; intros queue D; [done|].
  destruct queue as [|[x y] rest]; cbn [ac3_loop].
  - by intros [= <- <-].
  - intros ([t D1] & Ht & H)%bind_Ok Hin Hag.
    pose proof (ac3_turn_shrinks _ _ _ _ _ Ht) as Hs.
    assert (Hin1 : sol_in D1 s).
    { apply ac3_turn_Ok in Ht as [[_ Hr]|[Hr _]]; by eapply revise_keeps_solution. }
    destruct t as [b'|arcs].
    + injection H as <- <-.
      apply ac3_turn_Ok in Ht as [[? _]|[_ (dx' & Hdx' & [[-> _]|[_ ?]])]]; [done| |done].
      apply Hin1 in Hdx'. set_solver.
    + eapply IH; [done|done|]. by eapply sol_agrees_shrinks.
Qed.

(** Property X5.  [ac3] never removes a word of a solution: when a choice of
    one word per variable lies in the store and agrees at every overlap,
    [ac3] returns [True] and the choice still lies in the store. *)
Theorem ac3_keeps_solutions cw D arcs b D' s :
  ac3 cw D arcs = Ok (b, D') → sol_in D s → sol_agrees cw D s →
  b = true ∧ sol_in D' s.
Proof. apply ac3_loop_keeps_solution. Qed.

(** ** [sorted] sorts *)
Lemma ascending_cons {A} (key : A → nat) x l :
  ascending key (x :: l) ↔ (∀ y, y ∈ l → key x ≤ key y) ∧ ascending key l.
Proof.
  split.
  - intros H. split.
    + intros y [j Hj]%list_elem_of_lookup. apply (H 0 (S j)); [done|done|lia].
    + intros i j a b Hi Hj Hlt. apply (H (S i) (S j)); [done|done|lia].
  - intros [Hx Hl] i j a b Hi Hj Hlt. destruct i as [|i], j as [|j]; try lia; simpl in *.
    + injection Hi as <-. apply Hx. by eapply list_elem_of_lookup_2.
    + apply (Hl i j); [done|done|lia].
Qed.

Lemma insert_by_ascending {A} (key : A → nat) x l :
  ascending key l → ascending key (insert_by key x l).
Proof.
  induction l as [|y l IH]; simpl.
  - intros _. apply ascending_cons. split; [by intros ? ?%elem_of_nil|done].
  - intros [Hy Hl]%ascending_cons. case_decide as Hle.
    + apply ascending_cons. split; [|by apply ascending_cons].
      intros z [->|Hz]%elem_of_cons; [done|]. specialize (Hy z Hz). lia.
    + apply ascending_cons. split; [|by apply IH].
      intros z Hz. rewrite insert_by_perm in Hz.
      apply elem_of_cons in Hz as [->|Hz]; [lia|by apply Hy].
Qed.

Lemma sorted_by_ascending {A} (key : A → nat) l : ascending key (sorted_by key l).
Proof.
  induction l as [|x l IH]; [by intros i j x y ?|].
  unfold sorted_by in *. simpl. by apply insert_by_ascending.
Qed.

(** ** [order_domain_values] *)
Lemma NoDup_dict_set {K V} `{EqDecision K} (k : K) (v : V) d :
  NoDup d.*1 → NoDup (dict_set k v d).*1.
Proof.
  intros Hnd. destruct (decide (k ∈ d.*1)) as [Hin|Hnin].
  - by rewrite dict_set_keys.
  - rewrite dict_set_fresh, fmap_app by done. simpl.
    apply NoDup_app. split_and!; [done| |apply NoDup_singleton].
    intros x Hx ->%list_elem_of_singleton. done.
Qed.

Lemma order_loop_Ok cw D a var ws order order' :
  order_loop cw D a var ws order = Ok order' →
  (NoDup order.*1 → NoDup order'.*1) ∧
  (∀ w, w ∈ order'.*1 ↔ w ∈ order.*1 ∨ (w ∈ ws ∧ w ∉ a.*2)) ∧
  (∀ w n, (w, n) ∈ order' →
     (w, n) ∈ order ∨ ruled_out cw D a var w (neighbors cw var) 0 = Ok n).
Proof.
  revert order. induction ws as [|word ws IH]; intros order; simpl.
  - intros [= <-]. split_and!; [done| |by left].
    intros w. split; [by left|]. intros [?|[?%elem_of_nil _]]; done.
  - case_bool_decide as Hused.
    + intros (Hnd & Hk & Hv)%IH. split_and!; [done| |done].
      intros w. rewrite Hk. split; [set_solver|].
      intros [?|[[->|?]%elem_of_cons ?]]; [by left|done|right; done].
    + intros (n & Hn & (Hnd & Hk & Hv)%IH)%bind_Ok. split_and!.
      * intros ?. by apply Hnd, NoDup_dict_set.
      * intros w. rewrite Hk, elem_of_dict_set_keys. split.
        -- intros [[->|?]|[? ?]]; [right|by left|right]; (split; [set_solver|done]).
        -- intros [?|[[->|?]%elem_of_cons ?]]; [left; by right|left; by left|right; done].
      * intros w m [[[= -> ->]|?]%elem_of_dict_set|?]%Hv; [by right|by left|by right].
Qed.

Lemma count_conflicts_Ok word nv nn ws n n' :
  count_conflicts word nv nn ws n = Ok n' →
  n' = n + length (filter (λ w, String.get nv word ≠ String.get nn w) ws).
Proof.
  revert n. induction ws as [|w ws IH]; intros n; simpl.
  - intros [= <-]. lia.
  - intros (c1 & Hc1%index_Ok & (c2 & Hc2%index_Ok & H)%bind_Ok)%bind_Ok.
    apply IH in H as ->. rewrite filter_cons, Hc1, Hc2.
    destruct (decide (c1 ≠ c2)) as [Hne|He].
    + rewrite decide_True by congruence. simpl. lia.
    + rewrite decide_False; [lia|]. intros Hn. apply He. congruence.
Qed.

Lemma ruled_out_Ok cw D a var word ns n n' :
  ruled_out cw D a var word ns n = Ok n' →
  n' = n + sum_list_with (ruled_out_by cw D a var word) ns.
Proof.
  revert n. induction ns as [|nb ns IH]; intros n; simpl.
  - intros [= <-]. lia.
  - unfold ruled_out_by at 1. destruct (dict_mem nb a).
    + intros ->%IH. lia.
    + destruct (overlaps cw var nb) as [[nv nn]|].
      * intros (dn & Hdn%getitem_Ok & (m & ->%count_conflicts_Ok & ->%IH)%bind_Ok)%bind_Ok.
        rewrite Hdn. lia.
      * intros ->%IH. lia.
Qed.

Lemma order_domain_values_elem cw D var a values dv w :
  order_domain_values cw D var a = Ok values → D !! var = Some dv →
  w ∈ values ↔ w ∈ dv ∧ w ∉ a.*2.
Proof.
  unfold order_domain_values.
  intros (dv' & Hdv%getitem_Ok & (order & Hord & [= <-])%bind_Ok)%bind_Ok Hdv0.
  assert (dv' = dv) as -> by congruence.
  apply order_loop_Ok in Hord as (_ & Hk & _).
  unfold sorted_keys. rewrite (sorted_by_perm snd order), Hk, elem_of_elements.
  split; [by intros [?%elem_of_nil|?]|by right].
Qed.

(** Property X9.  [order_domain_values] lists, without repeats, the words of
    the domain of [var] that no variable has in the assignment, in ascending
    order of the number of words they rule out for the neighbours that have
    no word yet. *)
Theorem order_domain_values_spec cw D var a values :
  order_domain_values cw D var a = Ok values →
  ∃ dv, D !! var = Some dv ∧
    NoDup values ∧
    (∀ w, w ∈ values ↔ w ∈ dv ∧ w ∉ a.*2) ∧
    (∀ i j w1 w2,
       values !! i = Some w1 → values !! j = Some w2 → i < j →
       ruled_out_count cw D a var w1 ≤ ruled_out_count cw D a var w2).
Proof.
  unfold order_domain_values.
  intros (dv & Hdv%getitem_Ok & (order & Hord & [= <-])%bind_Ok)%bind_Ok.
  apply order_loop_Ok in Hord as (Hnd & Hk & Hv).
  exists dv. split; [done|]. unfold sorted_keys. split_and!.
  - rewrite (sorted_by_perm snd order). apply Hnd. constructor.
  - intros w. rewrite (sorted_by_perm snd order), Hk, elem_of_elements.
    split; [by intros [?%elem_of_nil|?]|by right].
  - intros i j w1 w2 Hi Hj Hlt.
    apply list_lookup_fmap_Some in Hi as ([w1' m1] & -> & Hi).
    apply list_lookup_fmap_Some in Hj as ([w2' m2] & -> & Hj).
    pose proof (sorted_by_ascending snd order i j _ _ Hi Hj Hlt) as Hle. simpl in *.
    assert (Hm : ∀ k w m, sorted_by snd order !! k = Some (w, m) →
                   m = ruled_out_count cw D a var w).
    { intros k w m Hk'%list_elem_of_lookup_2. rewrite sorted_by_perm in Hk'.
      destruct (Hv _ _ Hk') as [?%elem_of_nil|Hr]; [done|].
      by apply ruled_out_Ok in Hr. }
    by rewrite <- (Hm _ _ _ Hi), <- (Hm _ _ _ Hj).
Qed.

(** ** No exception on a well-formed puzzle *)
Lemma revise_returns cw D x y :
  node_consistent D → overlaps_in_bounds cw →
  is_Some (D !! x) → is_Some (D !! y) → ∃ r, revise cw D x y = Ok r.
Proof.
  intros Hnc Hov [dx Hdx] [dy Hdy]. apply (revise_total cw D x y dx dy Hdx Hdy).
  intros nx ny [Hnx Hny]%Hov. split; intros w Hw.
  - by rewrite (Hnc _ _ _ Hdx Hw).
  - by rewrite (Hnc _ _ _ Hdy Hw).
Qed.

Lemma ac3_turn_returns cw D x y :
  node_consistent D → overlaps_in_bounds cw →
  is_Some (D !! x) → is_Some (D !! y) → ∃ r, ac3_turn cw D (x, y) = Ok r.
Proof.
  intros Hnc Hov Hx Hy. destruct (revise_returns cw D x y) as [[b D1] Hr]; [done..|].
  unfold ac3_turn. rewrite Hr. cbn. destruct b; [|eauto].
  apply revise_true in Hr as (nx & ny & dx & dx' & _ & _ & -> & _).
  unfold getitem. rewrite lookup_insert_eq. cbn. case_decide; eauto.
Qed.

Lemma ac3_loop_returns cw fuel queue D :
  node_consistent D → overlaps_in_bounds cw → neighbors_closed cw D →
  (∀ x y, (x, y) ∈ queue → is_Some (D !! x) ∧ is_Some (D !! y)) →
  ac3_loop cw fuel queue D = OutOfFuel ∨ ∃ r, ac3_loop cw fuel queue D = Ok r.
Proof.
  intros Hnc Hov. revert queue D Hnc.
  induction fuel as [|fuel IH]; intros queue D Hnc Hcl Hq; [by left|].
  destruct queue as [|[x y] rest]; cbn [ac3_loop]; [eauto|].
  destruct (Hq x y) as [Hx Hy]; [left|].
  destruct (ac3_turn_returns cw D x y) as [[t D1] Ht]; [done..|].
  rewrite Ht. cbn. pose proof (ac3_turn_shrinks _ _ _ _ _ Ht) as Hs.
  destruct t as [b|arcs]; [eauto|].
  apply IH.
  - by eapply node_consistent_shrinks.
  - by eapply neighbors_closed_shrinks.
  - intros a b Hab. assert (is_Some (D !! a) ∧ is_Some (D !! b)) as [? ?].
    { apply elem_of_app in Hab as [Hab|Hab]; [apply Hq; by right|].
      apply ac3_turn_Ok in Ht as [[Ht _]|[_ (dx' & _ & [[_ ?]|[_ Ht]])]];
        [simplify_eq; by apply elem_of_nil in Hab|done|simplify_eq].
      apply list_elem_of_fmap in Hab as (n & Heq & Hn). simplify_eq.
      split; [exact (Hcl x n Hx Hn)|done]. }
    split; by apply (shrinks_is_Some D D1).
Qed.

Lemma ac3_total cw D :
  node_consistent D → overlaps_in_bounds cw → neighbors_closed cw D →
  ∃ b D', ac3 cw D None = Ok (b, D').
Proof.
  intros Hnc Hov Hcl.
  destruct (ac3_loop_returns cw (ac3_fuel cw (initial_queue (keys D)) D)
              (initial_queue (keys D)) D) as [H|[[b D'] H]]; [done..| | |].
  - intros x y (Hx & Hy & _)%elem_of_initial_queue. by rewrite <- !elem_of_keys.
  - by destruct (ac3_terminates cw D None).
  - by exists b, D'.
Qed.

(** Property X6.  On a node-consistent store whose overlaps lie within the
    lengths and whose neighbours are variables of the store, [ac3()] raises
    no exception: it returns. *)
Theorem ac3_returns cw D :
  node_consistent D → overlaps_in_bounds cw → neighbors_closed cw D →
  ∃ b D', ac3 cw D None = Ok (b, D').
Proof. apply ac3_total. Qed.

Lemma dict_get_total {K V} `{EqDecision K} (d : list (K * V)) k :
  k ∈ d.*1 → ∃ v, dict_get d k = Ok v.
Proof.
  induction d as [|[k' v'] d IH]; simpl; [by intros ?%elem_of_nil|].
  intros Hk. case_decide; [eauto|]. apply IH. set_solver.
Qed.

Lemma consistent_returns cw (a : assignment) :
  assignment_fits a → overlaps_in_bounds cw → ∃ b, consistent cw a = Ok b.
Proof.
  intros Hfit Hov. unfold consistent.
  assert (Hd : ∀ var vs, var ∈ a.*1 → (∀ v, v ∈ vs → v ∈ a.*1) →
                 ∃ b, distinct_loop a var vs = Ok b).
  { intros var vs Hvar. induction vs as [|v vs IH]; intros Hvs; simpl; [eauto|].
    case_decide; [apply IH; intros; apply Hvs; set_solver|].
    destruct (dict_get_total a var Hvar) as [w1 ->].
    destruct (dict_get_total a v) as [w2 ->]; [apply Hvs; set_solver|]. cbn.
    case_decide; [eauto|]. apply IH; intros; apply Hvs; set_solver. }
  assert (Hn : ∀ var ns, var ∈ a.*1 → ∃ b, neighbor_loop cw a var ns = Ok b).
  { intros var ns Hvar. induction ns as [|n ns IH]; simpl; [eauto|].
    destruct (overlaps cw var n) as [[nv nn]|] eqn:Hvn; [|done].
    destruct (Hov _ _ _ _ Hvn) as [Hnv Hnn].
    destruct (dict_mem n a) eqn:Hmem; [|done]. apply dict_mem_true in Hmem.
    destruct (dict_get_total a var Hvar) as [w1 Hw1].
    destruct (dict_get_total a n Hmem) as [w2 Hw2]. rewrite Hw1, Hw2. cbn.
    apply dict_get_Ok in Hw1, Hw2.
    destruct (index_in_bounds w1 nv) as (c1 & -> & _); [rewrite (Hfit _ _ Hw1); lia|].
    destruct (index_in_bounds w2 nn) as (c2 & -> & _); [rewrite (Hfit _ _ Hw2); lia|].
    cbn. case_decide; eauto. }
  assert (H : ∀ vs, (∀ v, v ∈ vs → v ∈ a.*1) → ∃ b, consistent_loop cw a vs = Ok b).
  { induction vs as [|var vs IH]; intros Hvs; simpl; [eauto|].
    assert (Hvar : var ∈ a.*1) by (apply Hvs; set_solver).
    destruct (dict_get_total a var Hvar) as [w ->]. cbn. case_decide; [eauto|].
    destruct (Hd var a.*1 Hvar) as [d ->]; [done|]. cbn. destruct d; cbn; [|eauto].
    destruct (Hn var (neighbors cw var) Hvar) as [n ->]. cbn. destruct n; cbn; [|eauto].
    apply IH. intros; apply Hvs; set_solver. }
  by apply H.
Qed.

Lemma count_conflicts_returns word nv nn ws n :
  nv < String.length word → (∀ w, w ∈ ws → nn < String.length w) →
  ∃ n', count_conflicts word nv nn ws n = Ok n'.
Proof.
  intros Hv. revert n. induction ws as [|w ws IH]; intros n Hws; simpl; [eauto|].
  destruct (index_in_bounds word nv Hv) as (c1 & -> & _).
  destruct (index_in_bounds w nn) as (c2 & -> & _); [apply Hws; set_solver|]. cbn.
  apply IH. intros; apply Hws; set_solver.
Qed.

Lemma ruled_out_returns cw D a var word ns n :
  node_consistent D → overlaps_in_bounds cw →
  String.length word = var_length var →
  (∀ nb, nb ∈ ns → is_Some (D !! nb)) →
  ∃ n', ruled_out cw D a var word ns n = Ok n'.
Proof.
  intros Hnc Hov Hlen. revert n. induction ns as [|nb ns IH]; intros n Hns; simpl; [eauto|].
  assert (Hns' : ∀ nb, nb ∈ ns → is_Some (D !! nb)) by (intros; apply Hns; set_solver).
  destruct (dict_mem nb a); [by apply IH|].
  destruct (overlaps cw var nb) as [[nv nn]|] eqn:Hvn; [|by apply IH].
  destruct (Hov _ _ _ _ Hvn) as [Hnv Hnn].
  destruct (Hns nb) as [dn Hdn]; [set_solver|]. unfold getitem. rewrite Hdn. cbn.
  destruct (count_conflicts_returns word nv nn (elements dn) n) as [n' ->]; [lia| |].
  - intros w Hw%elem_of_elements. by rewrite (Hnc _ _ _ Hdn Hw).
  - cbn. by apply IH.
Qed.

Lemma order_domain_values_returns cw D var a :
  node_consistent D → overlaps_in_bounds cw → neighbors_closed cw D →
  is_Some (D !! var) → ∃ values, order_domain_values cw D var a = Ok values.
Proof.
  intros Hnc Hov Hcl [dv Hdv]. unfold order_domain_values, getitem. rewrite Hdv. cbn.
  assert (H : ∀ ws order, (∀ w, w ∈ ws → w ∈ dv) →
                ∃ order', order_loop cw D a var ws order = Ok order').
  { induction ws as [|w ws IH]; intros order Hws; simpl; [eauto|].
    assert (Hws' : ∀ w, w ∈ ws → w ∈ dv) by (intros; apply Hws; set_solver).
    case_bool_decide; [by apply IH|].
    destruct (ruled_out_returns cw D a var w (neighbors cw var) 0) as [n ->]; [done..| | |].
    - apply (Hnc _ _ _ Hdv). apply Hws. set_solver.
    - intros nb Hnb. eapply Hcl; eauto.
    - cbn. by apply IH. }
  destruct (H (elements dv) []) as [order ->]; [by intros w ?%elem_of_elements|].
  cbn. eauto.
Qed.

(** ** What the search keeps true of the store *)

Lemma try_value_keeps (Q : domains → Prop) cw rec var value D a b :
  (∀ D b D', Q D → ac3 cw D None = Ok (b, D') → Q D') →
  (∀ D a r D' a', Q D → rec D a = Ok (r, D', a') → Q D') →
  Q D → try_value cw rec var value D a = Ok b → Q (branch_store b).
Proof.
  intros Hac Hrec HQ. unfold try_value.
  intros (c & _ & H)%bind_Ok. destruct c; simpl in H.
  - apply bind_Ok in H as ([arc_ok D1] & Hr & H).
    apply (Hac _ _ _ HQ) in Hr. destruct arc_ok; simpl in H.
    + apply bind_Ok in H as ([[r D2] a2] & Hr2 & H). apply (Hrec _ _ _ _ _ Hr) in Hr2.
      destruct r.
      * by injection H as <-.
      * apply bind_Ok in H as (a3 & _ & H). by injection H as <-.
    + apply bind_Ok in H as (a2 & _ & H). by injection H as <-.
  - apply bind_Ok in H as (a2 & _ & H). by injection H as <-.
Qed.

Lemma try_values_keeps (Q : domains → Prop) cw rec var values D a r D' a' :
  (∀ D b D', Q D → ac3 cw D None = Ok (b, D') → Q D') →
  (∀ D a r D' a', Q D → rec D a = Ok (r, D', a') → Q D') →
  Q D → try_values cw rec var values D a = Ok (r, D', a') → Q D'.
Proof.
  intros Hac Hrec. revert D a. induction values as [|value values IH]; intros D a HQ; simpl.
  - by intros [= _ <- _].
  - intros (b & Hb & H)%bind_Ok.
    apply (try_value_keeps Q) in Hb; [|done..].
    destruct b as [[[r1 D1] a1]|D1 a1]; simpl in Hb.
    + by injection H as _ <- _.
    + by eapply IH.
Qed.

Lemma backtrack_rec_keeps (Q : domains → Prop) cw fuel D a r D' a' :
  (∀ D b D', Q D → ac3 cw D None = Ok (b, D') → Q D') →
  Q D → backtrack_rec cw fuel D a = Ok (r, D', a') → Q D'.
Proof.
  intros Hac. revert D a r D' a'.
  induction fuel as [|fuel IH]; intros D a r D' a' HQ; [done|].
  cbn [backtrack_rec]. destruct (assignment_complete D a).
  - by intros [= _ <- _].
  - intros (var & _ & (values & _ & H)%bind_Ok)%bind_Ok.
    eapply (try_values_keeps Q); eauto.
Qed.

Lemma ac3_holds_solution cw s D b D' :
  holds_solution cw s D → ac3 cw D None = Ok (b, D') → holds_solution cw s D'.
Proof.
  intros [Hin Hag] Hr. split.
  - by destruct (ac3_loop_keeps_solution _ _ _ _ _ _ _ Hr Hin Hag).
  - eapply sol_agrees_shrinks; [|done]. by eapply ac3_shrinks.
Qed.

(** ** No exception in the search *)

Lemma well_formed_shrinks cw D D' : shrinks D D' → well_formed cw D → well_formed cw D'.
Proof.
  intros Hs (Hnc & Hov & Hcl). split_and!; [|done|].
  - by eapply node_consistent_shrinks.
  - by eapply neighbors_closed_shrinks.
Qed.

Lemma assignment_fits_dict_set (a : assignment) var value :
  var ∉ a.*1 → assignment_fits a → String.length value = var_length var →
  assignment_fits (dict_set var value a).
Proof.
  intros Hvar Hfit Hlen v w. rewrite dict_set_fresh by done.
  intros [?|[= -> ->]%list_elem_of_singleton]%elem_of_app; [by apply Hfit|done].
Qed.

Lemma try_value_returns cw rec var value D a :
  well_formed cw D → assignment_fits a → var ∉ a.*1 →
  String.length value = var_length var →
  (∀ D1 a1 res, rec D1 a1 = Ok res → search_post cw D1 a1 res) →
  (∀ D1, shrinks D D1 →
     rec D1 (dict_set var value a) = OutOfFuel ∨
     ∃ res, rec D1 (dict_set var value a) = Ok res) →
  try_value cw rec var value D a = OutOfFuel ∨
  ∃ b, try_value cw rec var value D a = Ok b.
Proof.
  intros (Hnc & Hov & Hcl) Hfit Hvar Hlen Hpost Hrec. unfold try_value.
  destruct (consistent_returns cw (dict_set var value a)) as [c ->];
    [by apply assignment_fits_dict_set|done|].
  cbn [mbind result_bind negb]. rewrite dict_set_fresh by done.
  destruct c; cbn [mbind result_bind negb]; [|rewrite dict_pop_fresh by done; cbn [mbind result_bind negb]; eauto].
  destruct (ac3_total cw D) as (arc_ok & D1 & Hac); [done..|]. rewrite Hac. cbn [mbind result_bind negb].
  destruct arc_ok; cbn [mbind result_bind negb]; [|rewrite dict_pop_fresh by done; cbn [mbind result_bind negb]; eauto].
  destruct (Hrec D1) as [Hr|[[[r D2] a2] Hr]]; [by eapply ac3_shrinks| |];
    rewrite dict_set_fresh in Hr by done; rewrite Hr; cbn [mbind result_bind negb]; [by left|].
  destruct r; [eauto|].
  apply Hpost in Hr as [_ ->]. rewrite dict_pop_fresh by done. cbn [mbind result_bind negb]. eauto.
Qed.

Lemma try_values_returns cw fuel var values D0 D a :
  (∀ D1 a1, well_formed cw D1 → assignment_fits a1 →
     backtrack_rec cw fuel D1 a1 = OutOfFuel ∨ ∃ res, backtrack_rec cw fuel D1 a1 = Ok res) →
  well_formed cw D0 → shrinks D0 D → assignment_fits a → var ∉ a.*1 →
  (∀ value, value ∈ values → String.length value = var_length var) →
  try_values cw (backtrack_rec cw fuel) var values D a = OutOfFuel ∨
  ∃ res, try_values cw (backtrack_rec cw fuel) var values D a = Ok res.
Proof.
  intros IHf Hwf0 Hs Hfit Hvar. revert D Hs.
  induction values as [|value values IH]; intros D Hs Hlen; simpl; [eauto|].
  assert (Hwf : well_formed cw D) by by eapply well_formed_shrinks.
  destruct (try_value_returns cw (backtrack_rec cw fuel) var value D a)
    as [Hb|[b Hb]]; [done|done|done|apply Hlen; set_solver| | | |].
  - intros D1 a1 res. apply backtrack_rec_post.
  - intros D1 Hs1. apply IHf; [by eapply well_formed_shrinks|].
    apply assignment_fits_dict_set; [done..|]. apply Hlen. set_solver.
  - rewrite Hb. by left.
  - rewrite Hb. cbn. pose proof Hb as Hb'.
    apply try_value_post in Hb'; [|apply backtrack_rec_post|done].
    destruct b as [res|D1 a1]; [eauto|]. destruct Hb' as [Hs1 ->].
    apply IH; [by eapply shrinks_trans|]. intros; apply Hlen; set_solver.
Qed.

Lemma backtrack_rec_returns cw fuel D a :
  well_formed cw D → assignment_fits a →
  backtrack_rec cw fuel D a = OutOfFuel ∨ ∃ res, backtrack_rec cw fuel D a = Ok res.
Proof.
  revert D a. induction fuel as [|fuel IH]; intros D a Hwf Hfit; [by left|].
  cbn [backtrack_rec]. destruct (assignment_complete D a) eqn:Hc; [eauto|].
  destruct (select_unassigned_variable_total cw D a Hc) as (var & dv & -> & Hvar & Hdv & _).
  cbn. pose proof Hwf as (Hnc & Hov & Hcl).
  destruct (order_domain_values_returns cw D var a) as [values Hvalues]; [done..|eauto|].
  rewrite Hvalues. cbn.
  apply (try_values_returns cw fuel var values D D a); [done|done|apply shrinks_refl|done|done|].
  intros value Hvalue.
  apply (order_domain_values_elem _ _ _ _ _ dv value Hvalues Hdv) in Hvalue as [Hin _].
  by apply (Hnc _ _ _ Hdv).
Qed.

Lemma backtrack_total cw D a :
  node_consistent D → overlaps_in_bounds cw → neighbors_closed cw D →
  assignment_fits a →
  ∃ r D' a', backtrack cw D a = Ok (r, D', a').
Proof.
  intros Hnc Hov Hcl Hfit.
  destruct (backtrack_rec_returns cw (S (length (unassigned D a))) D a)
    as [H|[[[r D'] a'] H]]; [done|done| |by exists r, D', a'].
  by destruct (backtrack_terminates cw D a).
Qed.

(** Property X14.  On a node-consistent store whose overlaps lie within the
    lengths and whose neighbours are variables of the store, and an
    assignment whose words fit, [backtrack] raises no exception. *)
Theorem backtrack_returns cw D a :
  node_consistent D → overlaps_in_bounds cw → neighbors_closed cw D →
  assignment_fits a →
  ∃ r D' a', backtrack cw D a = Ok (r, D', a').
Proof. apply backtrack_total. Qed.

Lemma solve_store_well_formed cw :
  overlaps_in_bounds cw → neighbors_in_puzzle cw →
  well_formed cw (enforce_node_consistency (init_domains cw)).
Proof.
  intros Hov Hnb. split_and!; [apply enforce_node_consistency_node_consistent|done|].
  intros x y Hx Hy. apply enforce_node_consistency_init.
  apply enforce_node_consistency_init in Hx. by eapply Hnb.
Qed.

(** Property X18.  On a puzzle whose overlaps lie within the lengths and whose
    neighbours are variables of the puzzle, [solve] raises no exception. *)
Theorem solve_returns cw :
  overlaps_in_bounds cw → neighbors_in_puzzle cw →
  ∃ r D' a', solve cw = Ok (r, D', a').
Proof.
  intros Hov Hnb. pose proof (solve_store_well_formed cw Hov Hnb) as Hwf.
  unfold solve. pose proof Hwf as (Hnc & _ & Hcl).
  destruct (ac3_total cw _ Hnc Hov Hcl) as (b & D1 & Hac). rewrite Hac. cbn.
  apply ac3_shrinks in Hac.
  destruct (well_formed_shrinks _ _ _ Hac Hwf) as (Hnc1 & _ & Hcl1).
  apply backtrack_total; [done..|]. by intros v w ?%elem_of_nil.
Qed.

(** ** The search finds a solution when there is one *)

Lemma extends_to_fits D s a :
  node_consistent D → sol_in D s → extends_to D s a → assignment_fits a.
Proof.
  intros Hnc Hin Ha v w [[dv Hdv] ->]%Ha. apply (Hnc _ _ _ Hdv). by apply Hin.
Qed.

Lemma extends_to_consistent cw D s a :
  node_consistent D → neighbors_closed cw D →
  sol_in D s → sol_agrees cw D s → sol_distinct D s →
  extends_to D s a → consistent_assignment cw a.
Proof.
  intros Hnc Hcl Hin Hag Hdis Ha. split_and!.
  - by eapply extends_to_fits.
  - intros v1 w1 v2 w2 [H1 ->]%Ha [H2 ->]%Ha Hne. by apply Hdis.
  - intros v1 w1 v2 w2 n1 n2 [H1 ->]%Ha [H2 ->]%Ha _ Hov. by apply Hag.
Qed.

Lemma extends_to_dict_set D s (a : assignment) var :
  var ∉ a.*1 → is_Some (D !! var) → extends_to D s a →
  extends_to D s (dict_set var (s var) a).
Proof.
  intros Hvar HD Ha v w. rewrite dict_set_fresh by done.
  intros [?|[= -> ->]%list_elem_of_singleton]%elem_of_app; [by apply Ha|done].
Qed.

Lemma extends_to_shrinks D D' s a : shrinks D D' → extends_to D s a → extends_to D' s a.
Proof.
  intros Hs Ha v w [? ->]%Ha. split; [|done]. by apply (shrinks_is_Some D D').
Qed.

Lemma try_values_finds cw fuel s var values D0 D a :
  (∀ D1 a1, well_formed cw D1 → holds_solution cw s D1 → sol_distinct D1 s →
     NoDup a1.*1 → extends_to D1 s a1 →
     backtrack_rec cw fuel D1 a1 = OutOfFuel ∨
     ∃ r D' a', backtrack_rec cw fuel D1 a1 = Ok (Some r, D', a')) →
  well_formed cw D0 → sol_distinct D0 s → shrinks D0 D → holds_solution cw s D →
  NoDup a.*1 → extends_to D0 s a → var ∉ a.*1 → is_Some (D0 !! var) →
  (∀ value, value ∈ values → String.length value = var_length var) →
  s var ∈ values →
  try_values cw (backtrack_rec cw fuel) var values D a = OutOfFuel ∨
  ∃ r D' a', try_values cw (backtrack_rec cw fuel) var values D a = Ok (Some r, D', a').
Proof.
  intros IHf Hwf0 Hdis0 Hs Hsol Hnd Ha Hvar HD0. revert D Hs Hsol.
  induction values as [|value values IH]; intros D Hs Hsol Hlen Hin;
    [by apply elem_of_nil in Hin|].
  assert (Hwf : well_formed cw D) by by eapply well_formed_shrinks.
  pose proof Hwf as (Hnc & Hov & Hcl). pose proof Hsol as [Hsin Hsag].
  assert (Hfit : assignment_fits a).
  { eapply (extends_to_fits D); [done..|]. by eapply extends_to_shrinks. }
  cbn [try_values].
  destruct (try_value_returns cw (backtrack_rec cw fuel) var value D a)
    as [Hb|[b Hb]]; [done|done|done|apply Hlen; set_solver| | | |].
  { intros D1 a1 res. apply backtrack_rec_post. }
  { intros D1 Hs1. apply backtrack_rec_returns; [by eapply well_formed_shrinks|].
    apply assignment_fits_dict_set; [done..|]. apply Hlen. set_solver. }
  { rewrite Hb. by left. }
  rewrite Hb. cbn [mbind result_bind].
  pose proof (try_value_post _ _ _ _ _ _ _ (backtrack_rec_post cw fuel) Hvar Hb) as Hpost.
  destruct b as [[[r D1] a1]|D1 a1].
  { destruct Hpost as (_ & -> & _). right. by exists a1, D1, a1. }
  destruct Hpost as [Hs1 ->].
  assert (Hsol1 : holds_solution cw s D1).
  { apply (try_value_keeps (holds_solution cw s)) in Hb;
      [done|apply ac3_holds_solution| |done].
    intros D2 a2 r D' a' HQ Hr.
    eapply (backtrack_rec_keeps (holds_solution cw s)); [apply ac3_holds_solution|done|done]. }
  destruct (decide (value = s var)) as [->|Hne].
  - (* the branch of the solution's own word is never abandoned *)
    exfalso. unfold try_value in Hb.
    assert (Ha1 : extends_to D s (dict_set var (s var) a)).
    { apply extends_to_dict_set; [done|by apply (shrinks_is_Some D0 D)|].
      by eapply extends_to_shrinks. }
    rewrite (consistent_complete cw (dict_set var (s var) a)) in Hb;
      [|by apply NoDup_dict_set_fresh|].
    2:{ eapply (extends_to_consistent cw D); [done..| |done].
        by eapply sol_distinct_shrinks. }
    cbn [mbind result_bind negb] in Hb.
    apply bind_Ok in Hb as ([arc_ok D2] & Hac & Hb).
    destruct (ac3_loop_keeps_solution _ _ _ _ _ _ _ Hac Hsin Hsag) as [-> Hsin2].
    pose proof (ac3_shrinks _ _ _ _ _ Hac) as Hs2.
    cbn [negb] in Hb.
    destruct (IHf D2 (dict_set var (s var) a)) as [Hr|(r & D' & a' & Hr)].
    + exact (well_formed_shrinks _ _ _ Hs2 Hwf).
    + exact (ac3_holds_solution _ _ _ _ _ Hsol Hac).
    + apply (sol_distinct_shrinks D0); [|done].
      exact (shrinks_trans _ _ _ Hs Hs2).
    + by apply NoDup_dict_set_fresh.
    + exact (extends_to_shrinks _ _ _ _ Hs2 Ha1).
    + by rewrite Hr in Hb.
    + by rewrite Hr in Hb.
  - apply (IH D1); [by eapply shrinks_trans|done| |].
    + intros; apply Hlen; set_solver.
    + apply elem_of_cons in Hin as [?|?]; [congruence|done].
Qed.

Lemma backtrack_rec_finds cw fuel s D a :
  well_formed cw D → holds_solution cw s D → sol_distinct D s →
  NoDup a.*1 → extends_to D s a →
  backtrack_rec cw fuel D a = OutOfFuel ∨
  ∃ r D' a', backtrack_rec cw fuel D a = Ok (Some r, D', a').
Proof.
  revert D a. induction fuel as [|fuel IH]; intros D a Hwf Hsol Hdis Hnd Ha; [by left|].
  cbn [backtrack_rec]. destruct (assignment_complete D a) eqn:Hc.
  { right. by exists a, D, a. }
  destruct (select_unassigned_variable_total cw D a Hc) as (var & dv & -> & Hvar & Hdv & _).
  cbn [mbind result_bind]. pose proof Hwf as (Hnc & Hov & Hcl).
  destruct (order_domain_values_returns cw D var a) as [values Hvalues]; [done..|eauto|].
  rewrite Hvalues. cbn [mbind result_bind].
  pose proof (λ w, order_domain_values_elem _ _ _ _ _ dv w Hvalues Hdv) as Hel.
  apply (try_values_finds cw fuel s var values D D a); try done.
  - apply shrinks_refl.
  - intros value [Hin _]%Hel. by apply (Hnc _ _ _ Hdv).
  - apply Hel. destruct Hsol as [Hsin _]. split; [by apply Hsin|].
    intros ([v w] & Hw & Hvw)%list_elem_of_fmap. simpl in Hw.
    destruct (Ha _ _ Hvw) as [Hv ->].
    apply (Hdis v var); [done|eauto| |done].
    intros ->. apply Hvar. apply list_elem_of_fmap. by exists (var, s var).
Qed.

(** Property X16.  [backtrack] finds an assignment whenever the store holds a
    solution that agrees with the assignment so far. *)
Theorem backtrack_complete cw D a s :
  node_consistent D → overlaps_in_bounds cw → neighbors_closed cw D →
  sol_in D s → sol_agrees cw D s → sol_distinct D s →
  NoDup a.*1 → extends_to D s a →
  ∃ r D' a', backtrack cw D a = Ok (Some r, D', a').
Proof.
  intros Hnc Hov Hcl Hin Hag Hdis Hnd Ha.
  destruct (backtrack_rec_finds cw (S (length (unassigned D a))) s D a) as [H|H];
    [done..| |done].
  by destruct (backtrack_terminates cw D a).
Qed.

(** Property X19.  On such a puzzle [solve] returns an assignment, not [None],
    whenever the puzzle has a solution. *)
Theorem solve_complete cw s :
  overlaps_in_bounds cw → neighbors_in_puzzle cw →
  (∀ x, x ∈ variables cw → s x ∈ words cw ∧ String.length (s x) = var_length x) →
  (∀ x y, x ∈ variables cw → y ∈ variables cw → x ≠ y → s x ≠ s y) →
  (∀ x y nx ny, x ∈ variables cw → y ∈ variables cw →
     overlaps cw x y = Some (nx, ny) → agree nx ny (s x) (s y)) →
  ∃ r D' a', solve cw = Ok (Some r, D', a').
Proof.
  intros Hov Hnb Hwords Hdis Hag.
  pose proof (solve_store_well_formed cw Hov Hnb) as Hwf.
  set (D := enforce_node_consistency (init_domains cw)) in *.
  assert (Hdom : ∀ x, is_Some (D !! x) ↔ x ∈ variables cw)
    by apply enforce_node_consistency_init.
  assert (Hsol : holds_solution cw s D).
  { split.
    - intros x dx Hx. assert (Hv : x ∈ variables cw) by (apply Hdom; eauto).
      unfold D in Hx. rewrite enforce_node_consistency_lookup, init_domains_lookup in Hx.
      rewrite decide_True in Hx by done. injection Hx as <-.
      apply elem_of_filter. destruct (Hwords x Hv). done.
    - intros x y nx ny Hx%Hdom Hy%Hdom. by apply Hag. }
  assert (Hdis' : sol_distinct D s).
  { intros x y Hx%Hdom Hy%Hdom. by apply Hdis. }
  unfold solve. fold D. pose proof Hwf as (Hnc & _ & Hcl).
  destruct (ac3_total cw D Hnc Hov Hcl) as (b & D1 & Hac). rewrite Hac.
  cbn [mbind result_bind].
  pose proof (ac3_shrinks _ _ _ _ _ Hac) as Hs.
  destruct (ac3_holds_solution _ _ _ _ _ Hsol Hac) as [Hin1 Hag1].
  destruct (well_formed_shrinks _ _ _ Hs Hwf) as (Hnc1 & _ & Hcl1).
  destruct (backtrack_rec_finds cw (S (length (unassigned D1 []))) s D1 []) as [H|H].
  - by eapply well_formed_shrinks.
  - done.
  - by eapply sol_distinct_shrinks.
  - constructor.
  - by intros v w ?%elem_of_nil.
  - by destruct (backtrack_terminates cw D1 []).
  - done.
Qed.

(** ** What the search adds to the assignment *)

Lemma drawn_from_shrinks D D' ext : shrinks D D' → drawn_from D' ext → drawn_from D ext.
Proof.
  intros Hs Hd v w (dv' & Hv & Hw)%Hd. specialize (Hs v). rewrite Hv in Hs.
  destruct (D !! v) as [dv|]; [|done]. exists dv. split; [done|]. by apply Hs.
Qed.

Lemma try_value_extension cw rec var value dv D0 D a r D' a' :
  (∀ D1 a1 res, rec D1 a1 = Ok res → extension_post D1 a1 res) →
  D0 !! var = Some dv → value ∈ dv → shrinks D0 D → var ∉ a.*1 →
  try_value cw rec var value D a = Ok (Found (r, D', a')) →
  extension_post D0 a (r, D', a').
Proof.
  intros Hrec Hdv Hvalue Hs Hvar. unfold try_value.
  intros (c & _ & H)%bind_Ok. destruct c; simpl in H.
  - apply bind_Ok in H as ([arc_ok D1] & Hac%ac3_shrinks & H).
    destruct arc_ok; simpl in H.
    + apply bind_Ok in H as ([[r2 D2] a2] & Hr & H). apply Hrec in Hr.
      destruct r2 as [r2|].
      * injection H as <- <- <-. destruct Hr as (-> & ext & -> & Hext).
        split; [done|]. exists ((var, value) :: ext).
        rewrite dict_set_fresh by done. split; [by rewrite <- app_assoc|].
        intros v w [[= -> ->]|Hin]%elem_of_cons; [eauto|].
        eapply (drawn_from_shrinks D0 D1); [by eapply shrinks_trans|done|done].
      * by apply bind_Ok in H as (a3 & _ & H).
    + by apply bind_Ok in H as (a2 & _ & H).
  - by apply bind_Ok in H as (a2 & _ & H).
Qed.

Lemma try_values_extension cw fuel var values dv D0 D a res :
  (∀ D1 a1 res, backtrack_rec cw fuel D1 a1 = Ok res → extension_post D1 a1 res) →
  D0 !! var = Some dv → (∀ value, value ∈ values → value ∈ dv) →
  shrinks D0 D → var ∉ a.*1 →
  try_values cw (backtrack_rec cw fuel) var values D a = Ok res →
  extension_post D0 a res.
Proof.
  intros Hrec Hdv. revert D. induction values as [|value values IH];
    intros D Hvalues Hs Hvar; simpl.
  - by intros [= <-].
  - intros (b & Hb & H)%bind_Ok. destruct b as [[[r D1] a1]|D1 a1].
    + injection H as <-. eapply try_value_extension; eauto. apply Hvalues. set_solver.
    + apply try_value_post in Hb as [Hs1 ->]; [|apply backtrack_rec_post|done].
      eapply (IH D1); [|by eapply shrinks_trans|done|done].
      intros; apply Hvalues; set_solver.
Qed.

Lemma backtrack_rec_extension cw fuel D a res :
  backtrack_rec cw fuel D a = Ok res → extension_post D a res.
Proof.
  revert D a res. induction fuel as [|fuel IH]; intros D a res; [done|].
  cbn [backtrack_rec]. destruct (assignment_complete D a).
  - intros [= <-]. split; [done|]. exists []. split; [by rewrite app_nil_r|].
    by intros v w ?%elem_of_nil.
  - intros (var & Hvar & (values & Hvalues & H)%bind_Ok)%bind_Ok.
    apply select_unassigned_variable_spec in Hvar as (Hna & dv & Hdv & _).
    eapply (try_values_extension cw fuel var values dv D D); eauto.
    + intros value Hin. by apply (order_domain_values_elem _ _ _ _ _ dv value Hvalues Hdv) in Hin as [? _].
    + apply shrinks_refl.
Qed.

(** Property X15.  The assignment [backtrack] returns is the dictionary it
    was given, and leaves, with that very value: the entries at the call, in
    their order, followed by words drawn from the domains of their variables. *)
Theorem backtrack_extends cw D a r D' a' :
  backtrack cw D a = Ok (Some r, D', a') →
  r = a' ∧ ∃ ext, r = a ++ ext ∧ drawn_from D ext.
Proof.
  intros H%backtrack_rec_extension. destruct H as (-> & ext & -> & Hext).
  split; [done|]. by exists ext.
Qed.

(** Property X20.  The assignment [solve] returns gives variables of the
    puzzle words of the word list. *)
Theorem solve_uses_word_list cw r D' a' :
  solve cw = Ok (Some r, D', a') →
  ∀ v w, (v, w) ∈ r → v ∈ variables cw ∧ w ∈ words cw.
Proof.
  unfold solve. intros ([b D1] & Hac%ac3_shrinks & H%backtrack_rec_extension)%bind_Ok.
  destruct H as (-> & ext & -> & Hext). intros v w Hin. rewrite app_nil_l in Hin.
  apply (drawn_from_shrinks _ _ _ Hac) in Hext. apply Hext in Hin as (dv & Hv & Hw).
  rewrite enforce_node_consistency_lookup, init_domains_lookup in Hv.
  case_decide; simpl in Hv; [|done]. injection Hv as <-.
  unfold fits in Hw. apply elem_of_filter in Hw. tauto.
Qed.

(** ** [letter_grid] *)
Lemma get_lt_Some word k : k < String.length word → ∃ c, String.get k word = Some c.
Proof. intros H%get_is_Some. destruct H as [c ?]. eauto. Qed.

Lemma write_word_apply v word ks g :
  (∀ k, k ∈ ks → k < String.length word) →
  write_word v word ks g = apply_writes (word_writes v word ks) g.
Proof.
  revert g. induction ks as [|k ks IH]; intros g Hks; [done|].
  destruct (get_lt_Some word k) as [c Hc]; [apply Hks; set_solver|].
  unfold word_writes. cbn [write_word omap list_omap]. unfold index. rewrite Hc. cbn.
  destruct (grid_set g _ _ c); cbn; [|done..].
  apply IH. intros; apply Hks; set_solver.
Qed.

Lemma apply_writes_app ws1 ws2 g :
  apply_writes (ws1 ++ ws2) g = g' ← apply_writes ws1 g; apply_writes ws2 g'.
Proof.
  revert g. induction ws1 as [|[p c] ws1 IH]; intros g; [done|].
  cbn [app apply_writes]. destruct (grid_set g p.1 p.2 c); cbn; [apply IH|done..].
Qed.

Lemma letter_grid_loop_apply a g :
  letter_grid_loop a g = apply_writes (writes a) g.
Proof.
  revert g. induction a as [|[v word] a IH]; intros g; [done|].
  unfold writes. cbn [letter_grid_loop mbind list_bind]. fold (writes a).
  rewrite apply_writes_app, write_word_apply.
  - destruct (apply_writes _ g); cbn; [apply IH|done..].
  - intros k Hk%elem_of_seq. lia.
Qed.

Lemma elem_of_writes a p c :
  (p, c) ∈ writes a ↔
  ∃ v word k, (v, word) ∈ a ∧ String.get k word = Some c ∧ cell v k = p.
Proof.
  unfold writes. rewrite list_elem_of_bind. split.
  - intros ([v word] & Hin & Ha). exists v, word.
    unfold word_writes in Hin. apply list_elem_of_omap in Hin as (k & _ & Hk).
    destruct (String.get k word) as [c'|] eqn:Hc; [|done]. injection Hk as <- <-.
    by exists k.
  - intros (v & word & k & Ha & Hc & <-). exists (v, word). split; [|done].
    apply list_elem_of_omap. exists k. rewrite Hc. split; [|done].
    apply elem_of_seq. split; [lia|]. simpl. apply get_is_Some. eauto.
Qed.

Lemma grid_set_Ok g i j c g' :
  grid_set g i j c = Ok g' →
  (∀ h w, has_shape h w g → has_shape h w g' ∧ i < h ∧ j < w) ∧
  grid_get g' (i, j) = Some (Some c) ∧
  (∀ p, p ≠ (i, j) → grid_get g' p = grid_get g p).
Proof.
  unfold grid_set. destruct (g !! i) as [row|] eqn:Hrow; [|done].
  case_decide as Hj; [|done]. intros [= <-].
  pose proof (lookup_lt_Some _ _ _ Hrow) as Hi. split_and!.
  - intros h w [Hlen Hrows]. split_and!.
    + split; [by rewrite length_insert|].
      intros r Hr%list_elem_of_lookup. destruct Hr as [n Hn].
      destruct (decide (n = i)) as [->|Hne].
      * rewrite list_lookup_insert_eq in Hn by done. injection Hn as <-.
        rewrite length_insert. apply Hrows. by eapply list_elem_of_lookup_2.
      * rewrite list_lookup_insert_ne in Hn by done. apply Hrows.
        by eapply list_elem_of_lookup_2.
    + lia.
    + rewrite <- (Hrows row); [done|]. by eapply list_elem_of_lookup_2.
  - unfold grid_get. simpl. rewrite list_lookup_insert_eq by done. simpl.
    by rewrite list_lookup_insert_eq.
  - intros [i' j'] Hne. unfold grid_get. simpl.
    destruct (decide (i' = i)) as [->|Hi'].
    + rewrite list_lookup_insert_eq by done. rewrite Hrow. simpl.
      rewrite list_lookup_insert_ne; [done|]. congruence.
    + by rewrite list_lookup_insert_ne.
Qed.

Lemma grid_set_in_range g i j c h w :
  has_shape h w g → i < h → j < w → ∃ g', grid_set g i j c = Ok g'.
Proof.
  intros [Hlen Hrows] Hi Hj. unfold grid_set.
  destruct (lookup_lt_is_Some_2 g i) as [row Hrow]; [lia|]. rewrite Hrow.
  rewrite decide_True; [eauto|]. rewrite (Hrows row); [done|].
  by eapply list_elem_of_lookup_2.
Qed.

Lemma grid_set_raise g i j c e : grid_set g i j c = Raise e → e = IndexError.
Proof.
  unfold grid_set. destruct (g !! i); [case_decide|]; congruence.
Qed.

Lemma apply_writes_Ok ws g g' h w :
  apply_writes ws g = Ok g' → has_shape h w g →
  has_shape h w g' ∧
  (∀ p c, (p, c) ∈ ws → p.1 < h ∧ p.2 < w) ∧
  (∀ p, (∀ c, (p, c) ∉ ws) → grid_get g' p = grid_get g p) ∧
  (∀ p c, (p, c) ∈ ws → (∀ c', (p, c') ∈ ws → c' = c) → grid_get g' p = Some (Some c)).
Proof.
  revert g. induction ws as [|[[i j] c0] ws IH]; intros g; simpl.
  - intros [= <-] Hsh. split_and!; [done| | |]; try by intros ? ? ?%elem_of_nil.
    done.
  - intros (g1 & Hset & Hrest)%bind_Ok Hsh.
    apply grid_set_Ok in Hset as (Hshape & Hget & Hother).
    destruct (Hshape h w Hsh) as (Hsh1 & Hi & Hj).
    destruct (IH g1 Hrest Hsh1) as (Hsh' & Hrange & Hkeep & Hlast).
    split_and!; [done| | |].
    + intros p c [[= -> ->]|Hin]%elem_of_cons; [done|by eapply Hrange].
    + intros p Hp. rewrite Hkeep; [|intros c Hc; apply (Hp c); by right].
      apply Hother. intros ->. apply (Hp c0). left.
    + intros p c Hin Hsame.
      destruct (decide (p ∈ ws.*1)) as [([p' c'] & Hp & Hc')%list_elem_of_fmap|Hno].
      * simpl in Hp. subst p'. assert (c' = c) as -> by (apply Hsame; by right).
        apply (Hlast p c Hc'). intros c'' Hc''. apply Hsame. by right.
      * assert (∀ c', (p, c') ∉ ws) as Hno'.
        { intros c' Hc'. apply Hno, list_elem_of_fmap. by exists (p, c'). }
        rewrite Hkeep by done.
        apply elem_of_cons in Hin as [[= -> ->]|Hin]; [done|]. by destruct (Hno' c).
Qed.

Lemma apply_writes_in_range ws g h w :
  has_shape h w g → (∀ p c, (p, c) ∈ ws → p.1 < h ∧ p.2 < w) →
  ∃ g', apply_writes ws g = Ok g'.
Proof.
  revert g. induction ws as [|[[i j] c] ws IH]; intros g Hsh Hin; simpl; [eauto|].
  destruct (Hin (i, j) c) as [Hi Hj]; [left|]. simpl in Hi, Hj.
  destruct (grid_set_in_range g i j c h w Hsh Hi Hj) as [g1 Hg1]. rewrite Hg1. cbn.
  apply IH.
  - apply grid_set_Ok in Hg1 as (Hshape & _). by apply Hshape.
  - intros p c' Hp. apply (Hin p c'). by right.
Qed.

Lemma apply_writes_result ws g :
  (∃ g', apply_writes ws g = Ok g') ∨ apply_writes ws g = Raise IndexError.
Proof.
  revert g. induction ws as [|[[i j] c] ws IH]; intros g; simpl; [eauto|].
  destruct (grid_set g i j c) as [g1|e|] eqn:Hset; cbn.
  - apply IH.
  - right. by rewrite (grid_set_raise _ _ _ _ _ Hset).
  - unfold grid_set in Hset. destruct (g !! i); [case_decide|]; done.
Qed.

Lemma replicate_shape h w : has_shape h w (replicate h (replicate w (None : option ascii))).
Proof.
  split; [by rewrite length_replicate|].
  intros row [-> _]%elem_of_replicate. by rewrite length_replicate.
Qed.

Lemma replicate_get h w p :
  p.1 < h → p.2 < w →
  grid_get (replicate h (replicate w (None : option ascii))) p = Some None.
Proof.
  intros Hi Hj. unfold grid_get. rewrite lookup_replicate_2 by done. simpl.
  by rewrite lookup_replicate_2.
Qed.

Lemma on_grid_writes h w a :
  on_grid h w a ↔ ∀ p c, (p, c) ∈ writes a → p.1 < h ∧ p.2 < w.
Proof.
  split.
  - intros Hon p c (v & word & k & Ha & Hc & <-)%elem_of_writes.
    apply (Hon v word k Ha). apply get_is_Some. eauto.
  - intros Hw v word k Ha Hk. destruct (get_lt_Some word k Hk) as [c Hc].
    apply (Hw (cell v k) c). apply elem_of_writes. by exists v, word, k.
Qed.

Lemma letter_grid_Ok h w a g :
  letter_grid h w a = Ok g →
  has_shape h w g ∧ on_grid h w a ∧
  (∀ p, p.1 < h → p.2 < w →
     (∀ v word k, (v, word) ∈ a → k < String.length word → cell v k ≠ p) →
     grid_get g p = Some None) ∧
  (∀ v word k c, (v, word) ∈ a → String.get k word = Some c →
     (∀ v' word' k' c', (v', word') ∈ a → String.get k' word' = Some c' →
        cell v' k' = cell v k → c' = c) →
     grid_get g (cell v k) = Some (Some c)).
Proof.
  unfold letter_grid. rewrite letter_grid_loop_apply. intros Hg.
  destruct (apply_writes_Ok _ _ _ h w Hg (replicate_shape h w))
    as (Hsh & Hrange & Hkeep & Hlast).
  split_and!; [done|by apply on_grid_writes| |].
  - intros p Hi Hj Hp. rewrite Hkeep; [by apply replicate_get|].
    intros c (v & word & k & Ha & Hc & Hcell)%elem_of_writes.
    apply (Hp v word k Ha); [|done]. apply get_is_Some. eauto.
  - intros v word k c Ha Hc Hsame. apply Hlast.
    + apply elem_of_writes. by exists v, word, k.
    + intros c' (v' & word' & k' & Ha' & Hc' & Hcell)%elem_of_writes. eauto.
Qed.

Lemma cell_inj v k k' : cell v k = cell v k' → k = k'.
Proof.
  unfold cell. destruct (var_direction v); simpl; intros [=]; lia.
Qed.

Lemma NoDup_fst_inj {A B} (l : list (A * B)) x y y' :
  NoDup l.*1 → (x, y) ∈ l → (x, y') ∈ l → y = y'.
Proof.
  induction l as [|[x0 y0] l IH]; [by intros _ ?%elem_of_nil|].
  intros [Hx0 Hnd]%NoDup_cons [[= -> ->]|H1]%elem_of_cons [[= ?]|H2]%elem_of_cons;
    simplify_eq; auto.
  - destruct Hx0. apply list_elem_of_fmap. by exists (x0, y').
  - destruct Hx0. apply list_elem_of_fmap. by exists (x0, y).
Qed.

(** Property X21.  The grid [letter_grid] returns has [height] rows of [width]
    cells; a cell no word covers holds [None]; and a cell on which all the
    words that cover it agree holds their letter. *)
Theorem letter_grid_spec h w a g :
  letter_grid h w a = Ok g →
  has_shape h w g ∧
  (∀ p, p.1 < h → p.2 < w →
     (∀ v word k, (v, word) ∈ a → k < String.length word → cell v k ≠ p) →
     grid_get g p = Some None) ∧
  (∀ v word k c, (v, word) ∈ a → String.get k word = Some c →
     (∀ v' word' k' c', (v', word') ∈ a → String.get k' word' = Some c' →
        cell v' k' = cell v k → c' = c) →
     grid_get g (cell v k) = Some (Some c)).
Proof. intros H. apply letter_grid_Ok in H. tauto. Qed.

(** Property X22.  [letter_grid] returns exactly when every cell of every
    word lies on the grid, and raises [IndexError] otherwise. *)
Theorem letter_grid_bounds h w a :
  ((∃ g, letter_grid h w a = Ok g) ↔ on_grid h w a) ∧
  ((∃ g, letter_grid h w a = Ok g) ∨ letter_grid h w a = Raise IndexError).
Proof.
  split; [split|].
  - intros [g Hg]. by apply letter_grid_Ok in Hg as (_ & ? & _).
  - intros Hon. unfold letter_grid. rewrite letter_grid_loop_apply.
    eapply apply_writes_in_range; [apply replicate_shape|by apply on_grid_writes].
  - unfold letter_grid. rewrite letter_grid_loop_apply. apply apply_writes_result.
Qed.

(** Property X23.  When the overlap map records the crossings of the runs, the
    grid of a consistent assignment shows every letter of every word. *)
Theorem letter_grid_shows_words cw h w a g :
  NoDup a.*1 → consistent_assignment cw a → crossings_overlap cw a.*1 →
  letter_grid h w a = Ok g →
  ∀ v word k c, (v, word) ∈ a → String.get k word = Some c →
    grid_get g (cell v k) = Some (Some c).
Proof.
  intros Hnd (Hfit & _ & Hagree) Hcross Hg v word k c Ha Hc.
  apply letter_grid_Ok in Hg as (_ & _ & _ & Hread). apply (Hread v word k c Ha Hc).
  intros v' word' k' c' Ha' Hc' Hcell.
  destruct (decide (v' = v)) as [->|Hne].
  - assert (word' = word) as -> by (by eapply NoDup_fst_inj).
    apply cell_inj in Hcell as ->. congruence.
  - assert (k < var_length v) as Hk.
    { rewrite <- (Hfit v word Ha). apply get_is_Some. eauto. }
    assert (k' < var_length v') as Hk'.
    { rewrite <- (Hfit v' word' Ha'). apply get_is_Some. eauto. }
    destruct (Hcross v v' k k') as [Hnb Hov]; try done.
    + apply list_elem_of_fmap. by exists (v, word).
    + apply list_elem_of_fmap. by exists (v', word').
    + destruct (Hagree v word v' word' k k' Ha Ha' Hnb Hov) as (c0 & H1 & H2).
      congruence.
Qed.

(** ** [ac3] answers [False] only after emptying a domain *)
Lemma ac3_loop_false_emptied cw fuel queue D D' :
  ac3_loop cw fuel queue D = Ok (false, D') →
  ∃ x dx, D !! x = Some dx ∧ dx ≠ ∅ ∧ D' !! x = Some ∅.
Proof.
  revert queue D. induction fuel as [|fuel IH]; intros queue D; [done|].
  destruct queue as [|[x y] rest]; cbn [ac3_loop]; [done|].
  intros ([t D1] & Ht & H)%bind_Ok.
  pose proof (ac3_turn_shrinks _ _ _ _ _ Ht) as Hs.
  assert (Hlater : ∀ queue', ac3_loop cw fuel queue' D1 = Ok (false, D') →
            ∃ x dx, D !! x = Some dx ∧ dx ≠ ∅ ∧ D' !! x = Some ∅).
  { intros queue' (x0 & dx0 & Hx0 & Hne & Hx0')%IH.
    specialize (Hs x0). rewrite Hx0 in Hs.
    destruct (D !! x0) as [dx|] eqn:Hdx; [|done].
    exists x0, dx. split_and!; [done| |done]. set_solver. }
  apply ac3_turn_Ok in Ht as [[-> Hr]|[Hr (dx' & Hdx' & [[-> ->]|[Hne ->]])]].
  - by eapply Hlater.
  - injection H as <-.
    apply revise_true in Hr as (nx & ny & dx & dx0 & _ & Hdx & _ & Hsub & _).
    exists x, dx. split_and!; [done| |done]. set_solver.
  - by eapply Hlater.
Qed.

(** Property X4.  [ac3] returns [False] only when a domain that held a word
    at the start is empty at the end. *)
Theorem ac3_false_emptied cw D arcs D' :
  ac3 cw D arcs = Ok (false, D') →
  ∃ x dx, D !! x = Some dx ∧ dx ≠ ∅ ∧ D' !! x = Some ∅.
Proof. apply ac3_loop_false_emptied. Qed.

(** ** More facts about the example puzzles *)
Lemma crossing_neighbors_in_puzzle ws : neighbors_in_puzzle (crossing ws).
Proof.
  intros x y _. simpl. repeat case_decide; set_solver.
Qed.

Lemma crossing_well_formed ws :
  well_formed (crossing ws) (enforce_node_consistency (init_domains (crossing ws))).
Proof.
  apply solve_store_well_formed;
    [apply crossing_in_bounds|apply crossing_neighbors_in_puzzle].
Qed.

Lemma crossing_store_lookup ws x dx :
  enforce_node_consistency (init_domains (crossing ws)) !! x = Some dx →
  (x = across3 ∨ x = down3) ∧ dx = fits x ws.
Proof.
  rewrite enforce_node_consistency_lookup, init_domains_lookup.
  case_decide as Hx; [|done]. intros [= <-]. split; [|done].
  simpl in Hx. set_solver.
Qed.

Lemma cat_ate_holds :
  let cw := crossing {["cat"; "ate"; "dog"]} in
  let D := enforce_node_consistency (init_domains cw) in
  sol_in D cat_ate ∧ sol_agrees cw D cat_ate ∧ sol_distinct D cat_ate.
Proof.
  intros cw D. split_and!.
  - intros x dx [[-> | ->] ->]%crossing_store_lookup; by vm_compute.
  - intros x y nx ny _ _. simpl.
    repeat case_decide; try done; intros [= <- <-]; destruct_and!; subst;
      by exists "a"%char.
  - intros x y [dx [[-> | ->] _]%crossing_store_lookup]
      [dy [[-> | ->] _]%crossing_store_lookup]; done.
Qed.

(** ** The extra properties on the example puzzles *)

(** On the crossing puzzle with cat, ate and dog the across run is chosen
    first. *)
Lemma select_unassigned_variable_choice_witness :
  let cw := crossing {["cat"; "ate"; "dog"]} in
  let D := enforce_node_consistency (init_domains cw) in
  ∃ var dv,
    select_unassigned_variable cw D [] = Ok var ∧
    (var ∉ ([] : assignment).*1) ∧ D !! var = Some dv ∧
    ∀ v dv', D !! v = Some dv' → v ∉ ([] : assignment).*1 →
      size dv ≤ size dv' ∧
      (size dv' = size dv → length (neighbors cw var) ≤ length (neighbors cw v)).
Proof.
  intros cw D. apply (select_unassigned_variable_choice cw D []).
  vm_compute. reflexivity.
Defined.

Lemma select_unassigned_variable_none_left_witness :
  let cw := crossing {["cat"; "ate"; "dog"]} in
  select_unassigned_variable cw (init_domains cw)
    [(across3, "cat"%string); (down3, "ate"%string)] = Raise UnboundLocalError.
Proof.
  intros cw. apply (select_unassigned_variable_none_left cw).
  vm_compute. reflexivity.
Defined.

Lemma ac3_true_leaves_arc_consistent_witness :
  arc_consistent (crossing {["cat"; "ate"; "dog"]})
    {[across3 := {["cat"]}; down3 := {["ate"]}]}.
Proof.
  apply (ac3_true_leaves_arc_consistent _
           (init_domains (crossing {["cat"; "ate"; "dog"]})));
    [apply crossing_neighbors_cover|].
  vm_compute. reflexivity.
Defined.

Lemma ac3_loop_bound_witness :
  let cw := crossing {["cat"; "ate"; "dog"]} in
  let D := init_domains cw in
  ac3_loop cw 14 [(across3, down3)] D ≠ OutOfFuel ∧
  ac3_loop cw 14 [(across3, down3)] D
  = ac3_loop cw (ac3_fuel cw [(across3, down3)] D) [(across3, down3)] D.
Proof.
  intros cw D. apply (ac3_loop_bound cw [(across3, down3)] D 14).
  vm_compute. lia.
Defined.

Lemma backtrack_depth_bound_witness :
  let cw := crossing {["cat"; "ate"; "dog"]} in
  let D := init_domains cw in
  backtrack_rec cw 3 D [] ≠ OutOfFuel ∧
  backtrack_rec cw 3 D [] = backtrack cw D [].
Proof.
  intros cw D. apply (backtrack_depth_bound cw D [] 3).
  vm_compute. lia.
Defined.

Lemma search_keeps_node_consistency_witness :
  let cw := crossing {["cat"; "ate"; "dog"; "go"]} in
  let D := enforce_node_consistency (init_domains cw) in
  (∀ x y b D', revise cw D x y = Ok (b, D') → node_consistent D' ∧ dom D' = dom D) ∧
  (∀ arcs b D', ac3 cw D arcs = Ok (b, D') → node_consistent D' ∧ dom D' = dom D) ∧
  (∀ a r D' a', backtrack cw D a = Ok (r, D', a') → node_consistent D' ∧ dom D' = dom D).
Proof.
  intros cw D. apply (search_keeps_node_consistency cw D).
  apply enforce_node_consistency_node_consistent.
Defined.

Lemma solve_store_witness :
  let cw := crossing {["cat"; "ate"; "dog"; "go"]} in
  let D' : domains := {[across3 := {["cat"]}; down3 := {["ate"]}]} in
  dom D' = variables cw ∧
  ∀ v s w, D' !! v = Some s → w ∈ s → w ∈ words cw ∧ String.length w = var_length v.
Proof.
  intros cw D'.
  apply (solve_store cw (Some [(across3, "cat"%string); (down3, "ate"%string)]) D'
           [(across3, "cat"%string); (down3, "ate"%string)]).
  vm_compute. reflexivity.
Defined.

Lemma revise_again_witness :
  let cw := crossing {["cat"; "ate"; "dog"]} in
  let D' : domains := {[across3 := {["cat"]}; down3 := {["cat"; "ate"; "dog"]}]} in
  revise cw D' across3 down3 = Ok (false, D').
Proof.
  intros cw D'.
  apply (revise_again cw (init_domains cw) across3 down3 true D'); [done|].
  vm_compute. reflexivity.
Defined.

Lemma consistent_decides_witness :
  let cw := crossing {["cat"; "ate"; "dog"]} in
  let a := [(across3, "cat"%string); (down3, "ate"%string)] in
  consistent cw a = Ok true ↔ consistent_assignment cw a.
Proof.
  intros cw a. apply (consistent_decides cw a).
  repeat constructor; set_solver.
Defined.

Lemma ac3_keeps_solutions_witness :
  let cw := crossing {["cat"; "ate"; "dog"]} in
  let D' : domains := {[across3 := {["cat"]}; down3 := {["ate"]}]} in
  sol_in D' cat_ate.
Proof.
  intros cw D'.
  apply (ac3_keeps_solutions cw (enforce_node_consistency (init_domains cw)) None
           true D' cat_ate).
  - vm_compute. reflexivity.
  - apply cat_ate_holds.
  - apply cat_ate_holds.
Defined.

Lemma order_domain_values_spec_witness :
  let cw := crossing {["cat"; "ate"; "dog"]} in
  let D := enforce_node_consistency (init_domains cw) in
  let values := ["ate"; "cat"; "dog"]%string in
  ∃ dv, D !! down3 = Some dv ∧
    NoDup values ∧
    (∀ w, w ∈ values ↔ w ∈ dv ∧ w ∉ ([] : assignment).*2) ∧
    (∀ i j w1 w2,
       values !! i = Some w1 → values !! j = Some w2 → i < j →
       ruled_out_count cw D [] down3 w1 ≤ ruled_out_count cw D [] down3 w2).
Proof.
  intros cw D values. apply (order_domain_values_spec cw D down3 [] values).
  vm_compute. reflexivity.
Defined.

Lemma ac3_returns_witness :
  let cw := crossing {["cat"; "ate"; "dog"]} in
  ∃ b D', ac3 cw (enforce_node_consistency (init_domains cw)) None = Ok (b, D').
Proof.
  intros cw. apply (ac3_returns cw); apply (crossing_well_formed _).
Defined.

Lemma backtrack_returns_witness :
  let cw := crossing {["cat"; "ate"; "dog"]} in
  ∃ r D' a',
    backtrack cw (enforce_node_consistency (init_domains cw)) [(across3, "dog"%string)]
    = Ok (r, D', a').
Proof.
  intros cw. apply (backtrack_returns cw); try apply (crossing_well_formed _).
  intros v w [= -> ->]%list_elem_of_singleton. reflexivity.
Defined.

Lemma solve_returns_witness :
  ∃ r D' a', solve (crossing {["cat"; "ate"; "dog"]}) = Ok (r, D', a').
Proof.
  apply (solve_returns (crossing {["cat"; "ate"; "dog"]}));
    [apply crossing_in_bounds|apply crossing_neighbors_in_puzzle].
Defined.

Lemma backtrack_complete_witness :
  let cw := crossing {["cat"; "ate"; "dog"]} in
  ∃ r D' a',
    backtrack cw (enforce_node_consistency (init_domains cw)) [] = Ok (Some r, D', a').
Proof.
  intros cw.
  apply (backtrack_complete cw (enforce_node_consistency (init_domains cw)) [] cat_ate);
    try apply (crossing_well_formed _); try apply cat_ate_holds.
  - constructor.
  - by intros v w ?%elem_of_nil.
Defined.

Lemma solve_complete_witness :
  ∃ r D' a', solve (crossing {["cat"; "ate"; "dog"]}) = Ok (Some r, D', a').
Proof.
  apply (solve_complete (crossing {["cat"; "ate"; "dog"]}) cat_ate).
  - apply crossing_in_bounds.
  - apply crossing_neighbors_in_puzzle.
  - intros x Hx. simpl in Hx.
    assert (x = across3 ∨ x = down3) as [-> | ->] by set_solver; by vm_compute.
  - intros x y Hx Hy. simpl in Hx, Hy.
    assert (x = across3 ∨ x = down3) as [-> | ->] by set_solver;
      (assert (y = across3 ∨ y = down3) as [-> | ->] by set_solver); done.
  - intros x y nx ny _ _. simpl.
    repeat case_decide; try done; intros [= <- <-]; destruct_and!; subst;
      by exists "a"%char.
Defined.

Lemma backtrack_extends_witness :
  let cw := crossing {["cat"; "ate"; "dog"]} in
  let D := enforce_node_consistency (init_domains cw) in
  let r := [(across3, "cat"%string); (down3, "ate"%string)] in
  ∃ ext, r = [(across3, "cat"%string)] ++ ext ∧ drawn_from D ext.
Proof.
  intros cw D r.
  apply (backtrack_extends cw D [(across3, "cat"%string)] r
           {[across3 := {["cat"]}; down3 := {["ate"]}]} r).
  vm_compute. reflexivity.
Defined.

Lemma solve_uses_word_list_witness :
  let cw := crossing {["cat"; "ate"; "dog"; "go"]} in
  down3 ∈ variables cw ∧ "ate"%string ∈ words cw.
Proof.
  intros cw.
  apply (solve_uses_word_list cw [(across3, "cat"%string); (down3, "ate"%string)]
           {[across3 := {["cat"]}; down3 := {["ate"]}]}
           [(across3, "cat"%string); (down3, "ate"%string)]).
  - vm_compute. reflexivity.
  - set_solver.
Defined.

Lemma ac3_false_emptied_witness :
  let cw := crossing {["cat"; "dog"]} in
  let D' : domains := {[across3 := ∅; down3 := {["cat"; "dog"]}]} in
  ∃ x dx, init_domains cw !! x = Some dx ∧ dx ≠ ∅ ∧ D' !! x = Some ∅.
Proof.
  intros cw D'. apply (ac3_false_emptied cw (init_domains cw) None D').
  vm_compute. reflexivity.
Defined.

Lemma crossing_crossings_overlap ws : crossings_overlap (crossing ws) [across3; down3].
Proof.
  intros x y k k' Hx Hy Hne Hk Hk' Hcell.
  assert (x = across3 ∨ x = down3) as [-> | ->] by set_solver;
    (assert (y = across3 ∨ y = down3) as [-> | ->] by set_solver); try done;
    vm_compute in Hcell; injection Hcell as H1 H2; simpl in Hk, Hk';
    assert (k = 1 ∧ k' = 0 ∨ k = 0 ∧ k' = 1) as [[-> ->]|[-> ->]] by lia;
    try discriminate; try lia; split; vm_compute; try reflexivity; set_solver.
Qed.

Lemma letter_grid_spec_witness :
  let a := [(across3, "cat"%string); (down3, "ate"%string)] in
  let g : grid :=
    [[Some "c"; Some "a"; Some "t"]; [None; Some "t"; None]; [None; Some "e"; None]]%char in
  has_shape 3 3 g ∧
  (∀ p, p.1 < 3 → p.2 < 3 →
     (∀ v word k, (v, word) ∈ a → k < String.length word → cell v k ≠ p) →
     grid_get g p = Some None) ∧
  (∀ v word k c, (v, word) ∈ a → String.get k word = Some c →
     (∀ v' word' k' c', (v', word') ∈ a → String.get k' word' = Some c' →
        cell v' k' = cell v k → c' = c) →
     grid_get g (cell v k) = Some (Some c)).
Proof.
  intros a g. apply (letter_grid_spec 3 3 a g). vm_compute. reflexivity.
Defined.

Lemma letter_grid_shows_words_witness :
  let g : grid :=
    [[Some "c"; Some "a"; Some "t"]; [None; Some "t"; None]; [None; Some "e"; None]]%char in
  grid_get g (cell across3 1) = Some (Some "a"%char) ∧
  grid_get g (cell down3 0) = Some (Some "a"%char).
Proof.
  intros g.
  pose (a := [(across3, "cat"%string); (down3, "ate"%string)]).
  assert (Hnd : NoDup a.*1) by (repeat constructor; set_solver).
  assert (Hshown : ∀ v word k c, (v, word) ∈ a → String.get k word = Some c →
            grid_get g (cell v k) = Some (Some c)).
  { apply (letter_grid_shows_words (crossing {["cat"; "ate"; "dog"]}) 3 3 a g).
    - exact Hnd.
    - apply consistent_true; [exact Hnd|]. vm_compute. reflexivity.
    - apply crossing_crossings_overlap.
    - vm_compute. reflexivity. }
  split.
  - apply (Hshown across3 "cat"%string 1); [set_solver|reflexivity].
  - apply (Hshown down3 "ate"%string 0); [set_solver|reflexivity].
Defined.
